(** * Admin dashboard of the restaurant menu: image compression, name
      normalisation, category ordering

    A shallow embedding of the logic of
    [src/app/admin/Category/AddCategory/page.tsx] and
    [src/app/admin/AdminDashboard/page.tsx], and the properties the
    specification states about it.

    Conventions of the embedding:
    - a JavaScript string is the list of its UTF-16 code units ([jsstring]);
    - a JavaScript number that holds an integer (a length, a pixel count, an
      array index, an [order], a millisecond stamp) is a [Z] or a [nat]; the
      JPEG quality, which the code steps through 0.9, 0.8, ..., is a binary64
      float ([PrimFloat.float]), so that every rounding of the subtraction
      is the one the browser performs;
    - an array is a list; a slot of an array that may hold [undefined] is an
      [option];
    - the Firestore collection is a finite map from document ids to
      documents, and the effects of a handler (writes issued, console
      output) are returned next to the new component state. *)

From Stdlib Require Import ZArith Floats.PrimFloat Sorting.Sorted DecimalString.
From stdpp Require Import gmap strings list sorting.

Set Warnings "-inexact-float".

Local Open Scope Z_scope.

(** ** The JavaScript runtime *)

Module JS.

(** A string is the sequence of its UTF-16 code units. *)
Definition jsstring : Type := list Z.

(** [Math.round (num / den)] for an integer [num] and a positive integer
    [den]: the nearest integer, a tie going up.  The quotients the code
    rounds ([length * 3 / 4], [side * 1200 / longer]) are far below 2^53
    and their divisors below 2^40, so the float the browser rounds lies
    on the same side of every half-integer as the exact quotient. *)
Definition Math_round (num den : Z) : Z := (2 * num + den) / (2 * den).

(** [Math.max a b] on floats. *)
Definition Math_max (a b : float) : float :=
  if is_nan a || is_nan b then nan
  else if (a <? b)%float then b
  else if (b <? a)%float then a
  else if is_zero a && get_sign a then b else a.

(** [WhiteSpace] and [LineTerminator] code units: what [String.prototype.trim]
    strips and what [\s] matches in a regular expression. *)
Definition isWhiteSpace (c : Z) : bool :=
  ((9 <=? c) && (c <=? 13))            (* TAB, LF, VT, FF, CR *)
  || (c =? 32) || (c =? 160)           (* SP, NBSP *)
  || (c =? 5760)                       (* U+1680 *)
  || ((8192 <=? c) && (c <=? 8202))    (* U+2000 .. U+200A *)
  || (c =? 8232) || (c =? 8233)        (* LS, PS *)
  || (c =? 8239) || (c =? 8287)        (* U+202F, U+205F *)
  || (c =? 12288) || (c =? 65279).     (* U+3000, U+FEFF *)

Definition SPACE : Z := 32.

Fixpoint trimStart (s : jsstring) : jsstring :=
  match s with
  | [] => []
  | c :: s' => if isWhiteSpace c then trimStart s' else s
  end.

Fixpoint trimEnd (s : jsstring) : jsstring :=
  match s with
  | [] => []
  | c :: s' =>
      match trimEnd s' with
      | [] => if isWhiteSpace c then [] else [c]
      | r => c :: r
      end
  end.

(** [s.trim()] *)
Definition trim (s : jsstring) : jsstring := trimEnd (trimStart s).

(** [s.replace(/\s+/g, " ")]: every maximal run of white space becomes one
    space.  [in_run] tells that the previous code unit was white space. *)
Fixpoint replace_whitespace_runs (in_run : bool) (s : jsstring) : jsstring :=
  match s with
  | [] => []
  | c :: s' =>
      if isWhiteSpace c then
        if in_run then replace_whitespace_runs true s'
        else SPACE :: replace_whitespace_runs true s'
      else c :: replace_whitespace_runs false s'
  end.

(** [s.split(sep)] for a separator of one code unit; [[""]] on [""]. *)
Fixpoint split (sep : Z) (s : jsstring) : list jsstring :=
  match s with
  | [] => [[]]
  | c :: s' =>
      if c =? sep then [] :: split sep s'
      else match split sep s' with
           | w :: ws => (c :: w) :: ws
           | [] => [[c]]
           end
  end.

(** [ws.join(sep)] *)
Fixpoint join (sep : Z) (ws : list jsstring) : jsstring :=
  match ws with
  | [] => []
  | w :: ws' =>
      match ws' with
      | [] => w
      | _ :: _ => w ++ sep :: join sep ws'
      end
  end.

(** [s.charAt(i)]: the string of the one code unit at [i], or [""]. *)
Definition charAt (i : nat) (s : jsstring) : jsstring := take 1 (drop i s).

(** [s.slice(i)] for a non-negative [i]. *)
Definition slice (i : nat) (s : jsstring) : jsstring := drop i s.

(** Case mapping.  The tables are those of Unicode on the code units
    U+0000 .. U+00FF (Basic Latin and Latin-1 Supplement) and on the three
    code units outside that block which they map to (U+0178, U+039C, U+03BC).
    The tables of the other blocks are not reproduced: a code unit outside
    the ones listed is left as it is, and the statements below that depend
    on the case of letters are stated for Latin-1 strings. *)
Definition toUpperCase_unit (c : Z) : jsstring :=
  if (97 <=? c) && (c <=? 122) then [c - 32]                    (* a .. z *)
  else if c =? 181 then [924]                                   (* micro sign *)
  else if c =? 223 then [83; 83]                                (* sharp s: "SS" *)
  else if (224 <=? c) && (c <=? 254) && negb (c =? 247) then [c - 32]
  else if c =? 255 then [376]                                   (* y diaeresis *)
  else if c =? 956 then [924]                                   (* Greek mu *)
  else [c].

Definition toLowerCase_unit (c : Z) : Z :=
  if (65 <=? c) && (c <=? 90) then c + 32                       (* A .. Z *)
  else if (192 <=? c) && (c <=? 222) && negb (c =? 215) then c + 32
  else if c =? 376 then 255
  else if c =? 924 then 956
  else c.

Definition toUpperCase (s : jsstring) : jsstring :=
  concat (map toUpperCase_unit s).

Definition toLowerCase (s : jsstring) : jsstring :=
  map toLowerCase_unit s.

(** A string literal of the source, all of whose characters are ASCII. *)
Definition js (s : string) : jsstring :=
  map (λ a, Z.of_nat (Ascii.nat_of_ascii a)) (String.list_ascii_of_string s).

(** Truthiness of a value that is a string, [null] or [undefined]. *)
Definition truthy (v : option jsstring) : bool :=
  match v with
  | Some (_ :: _) => true
  | _ => false
  end.

(** [arr.splice(start, deleteCount, ...items)] for non-negative indices:
    the elements removed, and the array afterwards.  An index past the end
    is clamped to the length, as [take] and [drop] do. *)
Definition splice {A} (start deleteCount : nat) (items l : list A)
    : list A * list A :=
  (take deleteCount (drop start l),
   take start l ++ items ++ drop (start + deleteCount) l).

(** Numbers that may be infinite: [order ?? Infinity] and its differences. *)
Inductive number := Num (z : Z) | PosInfinity | NegInfinity | NaN.

Definition number_sub (a b : number) : number :=
  match a, b with
  | Num x, Num y => Num (x - y)
  | NaN, _ | _, NaN => NaN
  | PosInfinity, PosInfinity | NegInfinity, NegInfinity => NaN
  | PosInfinity, _ | _, NegInfinity => PosInfinity
  | NegInfinity, _ | _, PosInfinity => NegInfinity
  end.

(** [a !== b] on numbers ([NaN] differs from itself). *)
Definition number_neq (a b : number) : bool :=
  match a, b with
  | Num x, Num y => negb (x =? y)
  | PosInfinity, PosInfinity | NegInfinity, NegInfinity => false
  | _, _ => true
  end.

(** [v > 0], the one test [Array.prototype.sort] makes on what the
    comparator returns to decide that its first argument goes after its
    second. *)
Definition number_positive (v : number) : bool :=
  match v with
  | Num z => 0 <? z
  | PosInfinity => true
  | NegInfinity | NaN => false
  end.

Section Sort.
Context {A : Type}.
Variable compareFn : A → A → number.

(** [arr.sort(compareFn)].  The sort of the language is stable, so for a
    comparator that is a consistent ordering its result is the one list
    that is sorted and keeps ties in their original order; the insertion
    sort below computes it. *)
Fixpoint sort_insert (x : A) (l : list A) : list A :=
  match l with
  | [] => [x]
  | y :: l' =>
      if number_positive (compareFn x y) then y :: sort_insert x l'
      else x :: l
  end.

Fixpoint sort (l : list A) : list A :=
  match l with
  | [] => []
  | x :: l' => sort_insert x (sort l')
  end.

End Sort.

End JS.

Import JS.

(** ** Name normalisation

    [formatName] is defined with the same text in
    [Category/AddCategory/page.tsx] and in [AdminDashboard/page.tsx]; the
    one definition below stands for both. *)

(** [w.charAt(0).toUpperCase() + w.slice(1).toLowerCase()] *)
Definition capitalize (w : jsstring) : jsstring :=
  toUpperCase (charAt 0 w) ++ toLowerCase (slice 1 w).

Definition formatName (raw : jsstring) : jsstring :=
  join SPACE
    (map capitalize
       (split SPACE (replace_whitespace_runs false (trim raw)))).

(** ** The [categories] collection of the document store *)

Module Firestore.

(** The fields of a category document that the code reads or writes; a
    field that is absent is [None].  [createdAt] is held as the number its
    [toMillis()] returns. *)
Record CategoryDoc := {
  doc_name : option jsstring;
  doc_imageUrl : option jsstring;
  doc_createdAt : option Z;
  doc_order : option Z
}.

Abbreviation Collection := (gmap string CategoryDoc).

(** [updateDoc(doc(db, "categories", id), { order: idx })] on the stored
    document; [None] when there is no such document (the call rejects). *)
Definition set_order (id : string) (idx : nat) (db : Collection)
    : option Collection :=
  match db !! id with
  | Some d =>
      Some (<[id := {| doc_name := doc_name d;
                       doc_imageUrl := doc_imageUrl d;
                       doc_createdAt := doc_createdAt d;
                       doc_order := Some (Z.of_nat idx) |}]> db)
  | None => None
  end.

End Firestore.

Import Firestore.

(** ** AddCategory: image compression and the submit handler *)

Module AddCategory.

(** What [img.onload] sees of the decoded file. *)
Record Image := { width : Z; height : Z }.

(** The canvas after [drawImage]: its size and the picture drawn. *)
Record Canvas := { canvas_width : Z; canvas_height : Z; drawn : Image }.

Definition MAX_DIM : Z := 1200.
Definition TARGET_KB : Z := 500 * 1024.

(** The first half of [img.onload]: the size given to the canvas. *)
Definition canvasSize (img : Image) : Z * Z :=
  let width := width img in
  let height := height img in
  if (width >? height) && (width >? MAX_DIM) then
    (MAX_DIM, Math_round (height * MAX_DIM) width)
  else if height >? MAX_DIM then
    (Math_round (width * MAX_DIM) height, MAX_DIM)
  else (width, height).

Definition drawImage (img : Image) : Canvas :=
  let '(w, h) := canvasSize img in
  {| canvas_width := w; canvas_height := h; drawn := img |}.

(** [Math.round((dataUrl.length * 3) / 4)] *)
Definition byteLength (dataUrl : jsstring) : Z :=
  Math_round (Z.of_nat (length dataUrl) * 3) 4.

(** The value [compressImage] resolves with, together with the final
    content of the variable [quality] and the number of calls of
    [canvas.toDataURL] made. *)
Record Resolved :=
  { dataUrl : jsstring; quality : float; encodings : nat }.

Inductive Promise := Resolve (r : Resolved) | Reject.

Section Compress.

(** The browser: the decoder behind [FileReader] and [Image] ([None]
    when [onerror] fires) and the JPEG encoder of the canvas. *)
Context {File : Type}.
Variable decode : File → option Image.
Variable toDataURL : Canvas → float → jsstring.

(** The stop test of [tryCompress]. *)
Definition accepted (url : jsstring) (q : float) : bool :=
  (byteLength url <? TARGET_KB) || (q <=? 0.1)%float.

(** [tryCompress] re-schedules itself with [setTimeout]; [fuel] bounds
    the number of times it runs, [n] counts the encodings made so far. *)
Fixpoint tryCompress (fuel : nat) (canvas : Canvas) (quality : float)
    (n : nat) : option Resolved :=
  match fuel with
  | O => None
  | S fuel' =>
      let dataUrl := toDataURL canvas quality in
      if accepted dataUrl quality then
        Some {| dataUrl := dataUrl; quality := quality; encodings := S n |}
      else
        tryCompress fuel' canvas (Math_max (quality - 0.1) 0.1) (S n)
  end.

Definition compressImage (fuel : nat) (file : File) : option Promise :=
  match decode file with
  | None => Some Reject
  | Some img =>
      Resolve <$> tryCompress fuel (drawImage img) 0.9%float 0
  end.

(** The quality of the [k]-th encoding (counted from 0). *)
Definition quality_at (k : nat) : float :=
  Nat.iter k (λ q, Math_max (q - 0.1) 0.1) 0.9%float.

End Compress.

(** The state of the dialog. *)
Record Dialog := {
  open : bool;
  name : jsstring;
  image : option jsstring;
  preview : jsstring;
  sizeInfo : jsstring;
  isLoading : bool
}.

Inductive Effect :=
| alert (msg : string)
| console_error (msg : string).

(** [handleSubmit].  [server] is what the store answers to [addDoc]: the id
    and the time stamp it gives to the new document, or [None] when the
    write is refused.  The result is the dialog afterwards, the collection
    afterwards and what the user and the console were shown. *)
Definition handleSubmit (server : option (string * Z)) (st : Dialog)
    (db : Collection) : Dialog * Collection * list Effect :=
  match trim (name st) with
  | [] => (st, db, [alert "Category name is required."])
  | _ :: _ =>
      if truthy (image st) then
        match server with
        | Some (id, now) =>
            ({| open := false; name := []; image := None; preview := [];
                sizeInfo := []; isLoading := false |},
             <[id := {| doc_name := Some (formatName (name st));
                        doc_imageUrl := image st;
                        doc_createdAt := Some now;
                        doc_order := None |}]> db,
             [])
        | None =>
            ({| open := open st; name := name st; image := image st;
                preview := preview st; sizeInfo := sizeInfo st;
                isLoading := false |},
             db,
             [console_error "Error adding category:";
              alert "Failed to add category. Check console."])
        end
      else (st, db, [alert "Category image is required."])
  end.

End AddCategory.

(** ** AdminDashboard: the snapshot listener and drag-and-drop ordering *)

Module AdminDashboard.

Record Category := {
  id : string;
  name : option jsstring;
  imageUrl : option jsstring;
  createdAt : option Z;
  order : option Z
}.

(** The part of the component state the listener and the drag handlers
    touch.  A slot of [categories] is [None] when the array holds
    [undefined] there. *)
Record State := {
  categories : list (option Category);
  loadingCategories : bool;
  draggedIndex : option nat
}.

(** The body of [snap.docs.forEach]: one fetched category per document. *)
Definition fetch (d : string * CategoryDoc) : Category :=
  let data := d.2 in
  {| id := d.1;
     name := Some (if truthy (doc_name data)
                   then formatName (default [] (doc_name data))
                   else js "Unnamed");
     imageUrl := doc_imageUrl data;
     createdAt := doc_createdAt data;
     order := doc_order data |}.

(** The comparator given to [fetched.sort]. *)
Definition compareCategories (a b : Category) : number :=
  let aOrder := from_option Num PosInfinity (order a) in
  let bOrder := from_option Num PosInfinity (order b) in
  if number_neq aOrder bOrder then number_sub aOrder bOrder
  else
    let aTime := default 0 (createdAt a) in
    let bTime := default 0 (createdAt b) in
    Num (bTime - aTime).

(** The callback of [onSnapshot(collection(db, "categories"), ...)]. *)
Definition onCategoriesSnapshot (docs : list (string * CategoryDoc))
    (st : State) : State :=
  let fetched := map fetch docs in
  {| categories := Some <$> sort compareCategories fetched;
     loadingCategories := false;
     draggedIndex := draggedIndex st |}.

Definition handleDragStart (index : nat) (st : State) : State :=
  {| categories := categories st;
     loadingCategories := loadingCategories st;
     draggedIndex := Some index |}.

(** An [updateDoc] call: the document and the value set for [order]. *)
Definition Write : Type := string * nat.

(** [newCategories.map((cat, idx) => updateDoc(doc(db, "categories",
    cat.id), { order: idx }))], from index [idx] on: the calls made, and
    whether the callback threw on reading [cat.id] of an [undefined] slot
    (the calls made before it stay issued). *)
Fixpoint batchUpdates (idx : nat) (cats : list (option Category))
    : list Write * bool :=
  match cats with
  | [] => ([], false)
  | Some cat :: rest =>
      let '(calls, threw) := batchUpdates (S idx) rest in
      ((id cat, idx) :: calls, threw)
  | None :: _ => ([], true)
  end.

(** What the store does with one call: the write is applied unless the
    network loses it or the document does not exist. *)
Definition perform (network_ok : Write → bool) (db : Collection) (w : Write)
    : option Collection :=
  if network_ok w then set_order w.1 w.2 db else None.

Definition commit (network_ok : Write → bool) (db : Collection)
    (calls : list Write) : Collection :=
  foldl (λ db w, default db (perform network_ok db w)) db calls.

Definition all_fulfilled (network_ok : Write → bool) (db : Collection)
    (calls : list Write) : bool :=
  forallb (λ w, bool_decide (is_Some (perform network_ok db w))) calls.

(** What a run of [handleDrop] leaves behind: the component state, the
    collection, the [updateDoc] calls issued (in order), the lines written
    with [console.error], and whether the handler ended by an exception
    instead of returning. *)
Record Outcome := {
  state : State;
  stored : Collection;
  issued : list Write;
  console : list string;
  threw : bool
}.

Definition handleDrop (network_ok : Write → bool) (st : State)
    (db : Collection) (dropIndex : nat) : Outcome :=
  let unchanged :=
    {| state := st; stored := db; issued := []; console := [];
       threw := false |} in
  match draggedIndex st with
  | None => unchanged
  | Some draggedIndex =>
      if decide (draggedIndex = dropIndex) then unchanged
      else
        let newCategories := categories st in
        let '(removed, newCategories) :=
          splice draggedIndex 1 [] newCategories in
        let moved := mjoin (removed !! 0%nat) in
        let '(_, newCategories) :=
          splice dropIndex 0 [moved] newCategories in
        let st' :=
          {| categories := newCategories;
             loadingCategories := loadingCategories st;
             draggedIndex := None |} in
        let '(calls, type_error) := batchUpdates 0 newCategories in
        if type_error then
          {| state := st'; stored := commit network_ok db calls;
             issued := calls; console := []; threw := true |}
        else
          {| state := st'; stored := commit network_ok db calls;
             issued := calls;
             console :=
               if all_fulfilled network_ok db calls then []
               else ["Failed to update category order:"%string];
             threw := false |}
  end.

(** Where the item at position [k] stands after the item at [i] has been
    taken out and put back at [j] ([k] other than [i]). *)
Definition position_after (i j k : nat) : nat :=
  let k' := if decide (k < i)%nat then k else (k - 1)%nat in
  if decide (k' < j)%nat then k' else S k'.

End AdminDashboard.

Import AddCategory AdminDashboard.

(** ** Vocabulary of the statements *)

(** The words [formatName] capitalises. *)
Definition words (s : jsstring) : list jsstring :=
  split SPACE (replace_whitespace_runs false (trim s)).

Abbreviation nows := (Forall (λ c, isWhiteSpace c = false)).

(** A blank string: white space only. *)
Abbreviation blank := (Forall (λ c, isWhiteSpace c = true)).

(** A word: some code units, none of them white space. *)
Definition word (w : jsstring) : Prop := w ≠ [] ∧ nows w.

(** A list of words as [split] returns it from a non-empty trimmed string. *)
Definition good (ws : list jsstring) : Prop := ws ≠ [] ∧ Forall word ws.

(** [a] may stand before [b] in the list: its [order] is smaller, an absent
    [order] counting as larger than any other; with equal (or two absent)
    orders, it was not created before [b] (an absent [createdAt] counting
    as time 0). *)
Definition ranks_before (a b : Category) : Prop :=
  match order a, order b with
  | Some x, Some y =>
      x < y ∨ (x = y ∧ default 0 (createdAt b) ≤ default 0 (createdAt a))
  | Some _, None => True
  | None, Some _ => False
  | None, None => default 0 (createdAt b) ≤ default 0 (createdAt a)
  end.

(** The collections the handlers can produce from the empty one:
    [handleSubmit] adds a document, [handleDrop] rewrites [order] fields,
    and the delete dialog and the clean-up effect of the dashboard call
    [deleteDoc]. *)
Inductive reachable : Collection → Prop :=
| reachable_empty : reachable ∅
| reachable_submit server dlg db :
    reachable db → reachable (handleSubmit server dlg db).1.2
| reachable_drop network_ok st db dropIndex :
    reachable db → reachable (stored (handleDrop network_ok st db dropIndex))
| reachable_delete key db :
    reachable db → reachable (delete key db).

(** Every stored category has a name of which something remains after
    trimming. *)
Definition names_kept (db : Collection) : Prop :=
  ∀ key d, db !! key = Some d → ∃ n, doc_name d = Some n ∧ trim n ≠ [].

(** ** Sample data *)

(** An encoder whose output stays above the target until the quality has
    dropped below 0.75, and a file that decodes to a 4000 x 3000 picture. *)
Definition sample_encoder (c : Canvas) (q : float) : jsstring :=
  if (q <? 0.75)%float then replicate 4000 65 else replicate (Z.to_nat 700000) 65.

Definition sample_decode (_ : unit) : option Image :=
  Some {| width := 4000; height := 3000 |}.

Definition sample_category (key : string) : Category :=
  {| id := key; name := Some (js "Biryani"); imageUrl := None;
     createdAt := Some 1700000000000; order := None |}.

Definition sample_doc : CategoryDoc :=
  {| doc_name := Some (js "Biryani"); doc_imageUrl := None;
     doc_createdAt := Some 1700000000000; doc_order := None |}.

Definition sample_list : list Category :=
  [sample_category "a"; sample_category "b"; sample_category "c"].

Definition sample_state (dragged : option nat) : State :=
  {| categories := Some <$> sample_list; loadingCategories := false;
     draggedIndex := dragged |}.

Definition sample_db : Collection :=
  <["a" := sample_doc]> (<["b" := sample_doc]> (<["c" := sample_doc]> ∅)).

(** A network that loses the writes to document "b". *)
Definition lossy (w : Write) : bool := negb (String.eqb w.1 "b").

Definition sample_dialog : Dialog :=
  {| open := true; AddCategory.name := js "  south   INDIAN food ";
     image := Some (js "data:image/jpeg;base64,AAAA"); preview := [];
     sizeInfo := []; isLoading := false |}.

(** ** The rest of the dialog of [Category/AddCategory/page.tsx] *)

Module AddCategoryDialog.

(** [s.startsWith(prefix)] *)
Fixpoint startsWith (prefix s : jsstring) : bool :=
  match prefix, s with
  | [], _ => true
  | _ :: _, [] => false
  | p :: prefix', c :: s' => (p =? c) && startsWith prefix' s'
  end.

(** [(num / den).toFixed(1)] for a non-negative quotient below 10^21: the
    decimal digits of the integer nearest to ten times the quotient (a tie
    going up), with a point before the last one. *)
Definition toFixed1 (num den : Z) : jsstring :=
  let n := Math_round (10 * num) den in
  js (NilZero.string_of_uint (N.to_uint (Z.to_N (n / 10))))
  ++ js "." ++ js (NilZero.string_of_uint (N.to_uint (Z.to_N (n mod 10)))).

(** The dialog when the component is mounted. *)
Definition initial : Dialog :=
  {| open := false; AddCategory.name := []; image := None; preview := [];
     sizeInfo := []; isLoading := false |}.

(** [onChange] of the name input. *)
Definition setName (value : jsstring) (st : Dialog) : Dialog :=
  {| open := open st; AddCategory.name := value; image := image st;
     preview := preview st; sizeInfo := sizeInfo st;
     isLoading := isLoading st |}.

(** [onClick] of the button over the preview. *)
Definition removeImage (st : Dialog) : Dialog :=
  {| open := open st; AddCategory.name := AddCategory.name st; image := None;
     preview := []; sizeInfo := []; isLoading := isLoading st |}.

Definition resetForm (st : Dialog) : Dialog :=
  {| open := open st; AddCategory.name := []; image := None; preview := [];
     sizeInfo := []; isLoading := isLoading st |}.

Definition setOpen (isOpen : bool) (st : Dialog) : Dialog :=
  {| open := isOpen; AddCategory.name := AddCategory.name st;
     image := image st; preview := preview st; sizeInfo := sizeInfo st;
     isLoading := isLoading st |}.

(** [onOpenChange] of the dialog. *)
Definition onOpenChange (isOpen : bool) (st : Dialog) : Dialog :=
  let st := setOpen isOpen st in
  if negb isOpen then resetForm st else st.

(** [onClick] of the Cancel button. *)
Definition cancel (st : Dialog) : Dialog := setOpen false st.

(** [disabled] of the submit button. *)
Definition submitDisabled (st : Dialog) : bool :=
  isLoading st
  || negb (truthy (Some (trim (AddCategory.name st))))
  || negb (truthy (image st)).

Section Process.

Context {File : Type}.
Variable file_type : File → jsstring.
Variable decode : File → option Image.
Variable toDataURL : Canvas → float → jsstring.

(** [processImage], run until the promise of [compressImage] is settled
    and its callback has run ([None]: [fuel] did not suffice). *)
Definition processImage (fuel : nat) (file : File) (st : Dialog)
    : option (Dialog * list Effect) :=
  if negb (startsWith (js "image/") (file_type file)) then
    Some (st, [alert "Please select an image file"])
  else
    match compressImage decode toDataURL fuel file with
    | None => None
    | Some Reject =>
        Some (st, [alert "Failed to process image. Try another one."])
    | Some (Resolve r) =>
        let compressed := dataUrl r in
        let kb := toFixed1 (Z.of_nat (length compressed) * 3) 4096 in
        Some ({| open := open st; AddCategory.name := AddCategory.name st;
                 image := Some compressed; preview := compressed;
                 sizeInfo := kb ++ js " KB"; isLoading := isLoading st |},
              [])
    end.

(** [handleImageChange], and what the drop handler of the upload area does
    with the dropped files: the first file, if any, is processed. *)
Definition handleImageChange (fuel : nat) (files : list File) (st : Dialog)
    : option (Dialog * list Effect) :=
  match files with
  | file :: _ => processImage fuel file st
  | [] => Some (st, [])
  end.

(** A data URL that the search of [compressImage] accepts. *)
Definition encoded (url : jsstring) : Prop :=
  ∃ canvas q, url = toDataURL canvas q ∧ accepted url q = true.

(** The dialogs and collections that the handlers produce from the
    mounted dialog and the empty collection, each handler taken as one
    step (of an asynchronous one, the state it leaves when it is done). *)
Inductive session : Dialog → Collection → Prop :=
| session_initial : session initial ∅
| session_setName value st db :
    session st db → session (setName value st) db
| session_processImage fuel file st db st' effects :
    session st db → processImage fuel file st = Some (st', effects) →
    session st' db
| session_removeImage st db :
    session st db → session (removeImage st) db
| session_onOpenChange isOpen st db :
    session st db → session (onOpenChange isOpen st) db
| session_cancel st db :
    session st db → session (cancel st) db
| session_handleSubmit server st db :
    session st db →
    session (handleSubmit server st db).1.1 (handleSubmit server st db).1.2
| session_handleDrop network_ok panel st db dropIndex :
    session st db →
    session st (stored (handleDrop network_ok panel db dropIndex))
| session_deleteDoc key st db :
    session st db → session st (delete key db).

(** What every stored category and the form satisfy. *)
Definition well_formed (st : Dialog) (db : Collection) : Prop :=
  preview st = default [] (image st) ∧
  (image st = None → sizeInfo st = []) ∧
  (∀ url, image st = Some url →
     sizeInfo st = toFixed1 (Z.of_nat (length url) * 3) 4096 ++ js " KB" ∧
     sizeInfo st ≠ []) ∧
  (∀ url, image st = Some url → encoded url) ∧
  (∀ key d, db !! key = Some d →
     ∃ n url, doc_name d = Some n ∧ trim n ≠ [] ∧
              doc_imageUrl d = Some url ∧ url ≠ [] ∧ encoded url).

End Process.

End AddCategoryDialog.

(** ** The catalogue of [AdminDashboard/page.tsx]: products and search *)

Module Catalogue.

(** The fields of a product document; a field that is absent or [null] is
    [None]. *)
Record ProductDoc := {
  pdoc_name : option jsstring;
  pdoc_price : option float;
  pdoc_halfPrice : option float;
  pdoc_quantity : option jsstring;
  pdoc_description : option jsstring;
  pdoc_imageUrl : option jsstring;
  pdoc_imageUrls : option (list jsstring);
  pdoc_isVeg : option bool;
  pdoc_createdAt : option Z
}.

Record Product := {
  product_id : string;
  product_name : jsstring;
  price : float;
  halfPrice : option float;
  quantity : option jsstring;
  description : option jsstring;
  product_imageUrl : option jsstring;
  imageUrls : option (list jsstring);
  isVeg : bool;
  product_createdAt : option Z
}.

(** The callback of [snap.docs.map] in the product listener. *)
Definition fetchProduct (d : string * ProductDoc) : Product :=
  let data := d.2 in
  let imageUrls :=
    match pdoc_imageUrls data with
    | Some urls => urls
    | None =>
        if truthy (pdoc_imageUrl data) then [default [] (pdoc_imageUrl data)]
        else []
    end in
  {| product_id := d.1;
     product_name := default (js "Unnamed Item") (pdoc_name data);
     price := default 0%float (pdoc_price data);
     halfPrice := pdoc_halfPrice data;
     quantity := pdoc_quantity data;
     description := pdoc_description data;
     product_imageUrl := pdoc_imageUrl data;
     imageUrls := if (0 <? length imageUrls)%nat then Some imageUrls else None;
     isVeg := default true (pdoc_isVeg data);
     product_createdAt := pdoc_createdAt data |}.

(** The comparator given to [prods.sort]. *)
Definition compareProducts (a b : Product) : number :=
  let aTime := default 0 (product_createdAt a) in
  let bTime := default 0 (product_createdAt b) in
  Num (bTime - aTime).

(** The callback of [onSnapshot] on the products of the category [catId]:
    the new [productsByCat] and [loadingProductsByCat]. *)
Definition onProductsSnapshot (catId : string)
    (docs : list (string * ProductDoc))
    (st : gmap string (list Product) * gmap string bool)
    : gmap string (list Product) * gmap string bool :=
  let prods := sort compareProducts (map fetchProduct docs) in
  (<[catId := prods]> st.1, <[catId := false]> st.2).

(** An entry of [allProducts]: [{ ...p, categoryId, categoryName }]. *)
Record Listed := {
  item : Product;
  categoryId : string;
  categoryName : option jsstring
}.

(** [allProducts]; [None] when reading [cat.id] of an [undefined] slot
    throws. *)
Fixpoint allProducts (categories : list (option Category))
    (productsByCat : gmap string (list Product)) : option (list Listed) :=
  match categories with
  | [] => Some []
  | None :: _ => None
  | Some cat :: rest =>
      match allProducts rest productsByCat with
      | None => None
      | Some list =>
          Some (map (λ p, {| item := p; categoryId := id cat;
                             categoryName := AdminDashboard.name cat |})
                    (default [] (productsByCat !! id cat))
                ++ list)
      end
  end.

(** [s.includes(q)] *)
Fixpoint includes (s q : jsstring) : bool :=
  AddCategoryDialog.startsWith q s
  || match s with
     | [] => false
     | _ :: s' => includes s' q
     end.

(** The predicate given to [allProducts.filter], [q] being the query in
    lower case. *)
Definition matches (q : jsstring) (p : Listed) : bool :=
  includes (toLowerCase (product_name (item p))) q
  || match description (item p) with
     | Some d => includes (toLowerCase d) q
     | None => false
     end.

Definition filteredProducts (all : list Listed) (searchQuery : jsstring)
    : list Listed :=
  match trim searchQuery with
  | [] => []
  | _ :: _ =>
      let q := toLowerCase searchQuery in
      List.filter (matches q) all
  end.

(** The heading of a category: [cat.name || "Unnamed Category"]. *)
Definition categoryLabel (cat : Category) : jsstring :=
  if truthy (AdminDashboard.name cat) then default [] (AdminDashboard.name cat)
  else js "Unnamed Category".

(** The clean-up effect, when its query and its deletions succeed: every
    document whose name is the empty string is deleted. *)
Definition cleanup (db : Collection) : Collection :=
  filter (λ kd, doc_name kd.2 ≠ Some []) db.

End Catalogue.

Import AddCategoryDialog Catalogue.

(** The most recent product first (an absent [createdAt] counting as
    time 0). *)
Definition newest_first (a b : Product) : Prop :=
  default 0 (product_createdAt b) ≤ default 0 (product_createdAt a).

Definition sample_product (key : string) (name : jsstring)
    (text : option jsstring) : Product :=
  {| product_id := key; product_name := name; price := 180%float;
     halfPrice := None; quantity := None; description := text;
     product_imageUrl := None; imageUrls := None; isVeg := false;
     product_createdAt := Some 1700000000000 |}.

Definition sample_catalogue : list Listed :=
  default []
    (allProducts (Some <$> sample_list)
       (<["a" := [sample_product "p1" (js "Chicken Biryani") None;
                  sample_product "p2" (js "Raita") (Some (js "with biryani"))]]>
          (<["c" := [sample_product "p3" (js "Lassi") None]]> ∅))).

(** An encoder that no quality brings below the target. *)
Definition heavy_encoder (c : Canvas) (q : float) : jsstring :=
  replicate (Z.to_nat 700000) 65.

Definition sample_file_type (_ : unit) : jsstring := js "image/png".

(** The dialog after a name was typed and a picture chosen. *)
Definition sample_processed : Dialog :=
  default initial
    (fst <$> processImage sample_file_type sample_decode sample_encoder 10 ()
               (setName (js "south indian") initial)).

Definition sample_doc_ordered (n : Z) : CategoryDoc :=
  {| doc_name := Some (js "Biryani"); doc_imageUrl := None;
     doc_createdAt := Some 1700000000000; doc_order := Some n |}.

(** The documents of the three sample categories after the first was
    dragged to the end. *)
Definition sample_docs_after : list (string * CategoryDoc) :=
  [("a", sample_doc_ordered 2); ("b", sample_doc_ordered 0);
   ("c", sample_doc_ordered 1)].

Definition sample_db_ordered : Collection :=
  <["a" := sample_doc_ordered 0]> (<["b" := sample_doc_ordered 1]> ∅).

Definition sample_new_doc : CategoryDoc :=
  {| doc_name := Some (js "South Indian Food");
     doc_imageUrl := Some (js "data:image/jpeg;base64,AAAA");
     doc_createdAt := Some 1700000000001; doc_order := None |}.

(** * Properties *)

Section CompressFacts.

Context {File : Type}.
Variable decode : File → option Image.
Variable toDataURL : Canvas → float → jsstring.

Lemma quality_at_S k :
  quality_at (S k) = Math_max (quality_at k - 0.1) 0.1.
Proof. reflexivity. Qed.

Lemma quality_at_floor : quality_at 9 = 0.1%float.
Proof. vm_compute. reflexivity. Qed.

Lemma accepted_at_floor url : accepted url (quality_at 9) = true.
Proof.
  unfold accepted. rewrite quality_at_floor.
  apply orb_true_iff. right. vm_compute. reflexivity.
Qed.

Lemma tryCompress_run canvas fuel k n :
  (k ≤ 9)%nat → (k + fuel ≥ 10)%nat →
  ∃ j,
    (k ≤ j ≤ 9)%nat ∧
    tryCompress toDataURL fuel canvas (quality_at k) n =
      Some {| dataUrl := toDataURL canvas (quality_at j);
              quality := quality_at j;
              encodings := (n + (j - k) + 1)%nat |} ∧
    accepted (toDataURL canvas (quality_at j)) (quality_at j) = true ∧
    ∀ i, (k ≤ i < j)%nat →
         accepted (toDataURL canvas (quality_at i)) (quality_at i) = false.
Proof.
  revert k n. induction fuel as [|fuel IH]; intros k n Hk Hfuel; [lia|].
  cbn [tryCompress].
  destruct (accepted (toDataURL canvas (quality_at k)) (quality_at k)) eqn:Hacc.
  - exists k. repeat split; [lia|lia| |done|intros; lia].
    do 2 f_equal. lia.
  - assert (k ≠ 9%nat) as Hk9.
    { intros ->. by rewrite accepted_at_floor in Hacc. }
    rewrite <- quality_at_S.
    destruct (IH (S k) (S n)) as (j & Hj & Hrun & Hj_acc & Hbefore); [lia|lia|].
    exists j. repeat split; [lia|lia| |done|].
    + rewrite Hrun. do 2 f_equal. lia.
    + intros i Hi. destruct (decide (i = k)) as [->|]; [done|].
      apply Hbefore. lia.
Qed.

Lemma floor_only_at_9 j :
  (j ≤ 9)%nat → (quality_at j <=? 0.1)%float = true → quality_at j = 0.1%float.
Proof.
  intros Hj.
  do 10 (destruct j as [|j]; [vm_compute; congruence|]). lia.
Qed.

(** C1.  When the file decodes, [compressImage] resolves, and the data URL
    it resolves with is the first one of the descending-quality search
    whose estimated size [round(length * 3 / 4)] is below the 500 KB
    target or whose quality is the floor 0.1: its estimate is at most the
    target or its quality is 0.1, and no earlier encoding passed the
    stop test. *)
Theorem compressImage_target_or_floor fuel file img :
  decode file = Some img →
  (10 ≤ fuel)%nat →
  ∃ r k,
    compressImage decode toDataURL fuel file = Some (Resolve r) ∧
    quality r = quality_at k ∧
    dataUrl r = toDataURL (drawImage img) (quality r) ∧
    (byteLength (dataUrl r) ≤ TARGET_KB ∨ quality r = 0.1%float) ∧
    ∀ i, (i < k)%nat →
      TARGET_KB ≤ byteLength (toDataURL (drawImage img) (quality_at i)) ∧
      (quality_at i <=? 0.1)%float = false.
Proof.
  intros Hdec Hfuel. unfold compressImage. rewrite Hdec.
  destruct (tryCompress_run (drawImage img) fuel 0 0)
    as (j & Hj & Hrun & Hacc & Hbefore); [lia|lia|].
  change (quality_at 0) with 0.9%float in Hrun. rewrite Hrun.
  eexists _, j. cbn [fmap option_fmap option_map dataUrl quality].
  split_and!; [done..| |]; cbn [dataUrl quality].
  - unfold accepted in Hacc. apply orb_true_iff in Hacc as [Hsize|Hq].
    + left. apply Z.ltb_lt in Hsize. lia.
    + right. apply floor_only_at_9; [lia|done].
  - intros i Hi. assert (0 ≤ i < j)%nat as Hbefore_i by lia.
    apply Hbefore in Hbefore_i. unfold accepted in Hbefore_i.
    apply orb_false_iff in Hbefore_i as [Hsize Hq].
    apply Z.ltb_ge in Hsize. done.
Qed.

(** C7.  The descending-quality search terminates on every input: with
    room for ten runs of [tryCompress] the promise is settled, a file that
    does not decode rejects it at once, and one that decodes resolves it
    after at most ten encodings (0.9 down to the floor 0.1), the last of
    which met the size target or was made at the floor. *)
Theorem compressImage_terminates fuel file :
  (10 ≤ fuel)%nat →
  ∃ p,
    compressImage decode toDataURL fuel file = Some p ∧
    match p with
    | Reject => decode file = None
    | Resolve r =>
        (1 ≤ encodings r ≤ 10)%nat ∧
        quality r = quality_at (encodings r - 1) ∧
        accepted (dataUrl r) (quality r) = true
    end.
Proof.
  intros Hfuel. unfold compressImage.
  destruct (decode file) as [img|]; [|by eexists].
  destruct (tryCompress_run (drawImage img) fuel 0 0)
    as (j & Hj & Hrun & Hacc & _); [lia|lia|].
  change (quality_at 0) with 0.9%float in Hrun. rewrite Hrun.
  eexists. split; [done|]. cbn [encodings quality dataUrl].
  replace (0 + (j - 0) + 1 - 1)%nat with j by lia.
  repeat split; [lia|lia|done].
Qed.

End CompressFacts.

Lemma compressImage_target_or_floor_witness :
  ∃ r k,
    compressImage sample_decode sample_encoder 10 () = Some (Resolve r) ∧
    quality r = quality_at k ∧
    dataUrl r = sample_encoder (drawImage {| width := 4000; height := 3000 |}) (quality r) ∧
    (byteLength (dataUrl r) ≤ TARGET_KB ∨ quality r = 0.1%float) ∧
    ∀ i, (i < k)%nat →
      TARGET_KB ≤ byteLength
        (sample_encoder (drawImage {| width := 4000; height := 3000 |}) (quality_at i)) ∧
      (quality_at i <=? 0.1)%float = false.
Proof.
  apply (compressImage_target_or_floor sample_decode sample_encoder 10 ()
           {| width := 4000; height := 3000 |}); [reflexivity|lia].
Defined.

Lemma compressImage_terminates_witness :
  ∃ p,
    compressImage sample_decode sample_encoder 12 () = Some p ∧
    match p with
    | Reject => sample_decode () = None
    | Resolve r =>
        (1 ≤ encodings r ≤ 10)%nat ∧
        quality r = quality_at (encodings r - 1) ∧
        accepted (dataUrl r) (quality r) = true
    end.
Proof.
  apply (compressImage_terminates sample_decode sample_encoder 12 ()). lia.
Defined.

(** The sample run stops at the third encoding. *)
Example compressImage_sample :
  (λ r, (encodings r, length (dataUrl r))) <$>
    tryCompress sample_encoder 10
      (drawImage {| width := 4000; height := 3000 |}) 0.9%float 0
  = Some (3%nat, 4000%nat).
Proof. vm_compute. reflexivity. Qed.

(** ** The size of the canvas *)

Lemma Math_round_bounds num den :
  0 < den →
  2 * den * Math_round num den ≤ 2 * num + den < 2 * den * Math_round num den + 2 * den.
Proof.
  intros Hden. unfold Math_round.
  pose proof (Z.div_mod (2 * num + den) (2 * den) ltac:(lia)) as Hdiv.
  pose proof (Z.mod_pos_bound (2 * num + den) (2 * den) ltac:(lia)) as Hmod.
  lia.
Qed.

(** C2.  When the longer side of the picture exceeds 1200, neither side of
    the canvas does: the longer side becomes 1200 and the shorter one
    [round(shorter * 1200 / longer)], which keeps the aspect ratio up to the
    rounding of that one quotient (the cross products differ by at most half
    the longer input side). *)
Theorem canvasSize_capped (img : Image) :
  MAX_DIM < Z.max (width img) (height img) →
  let w := width img in
  let h := height img in
  let w' := (canvasSize img).1 in
  let h' := (canvasSize img).2 in
  Z.max w' h' ≤ MAX_DIM ∧
  (h < w →
     w' = MAX_DIM ∧ h' = Math_round (h * MAX_DIM) w ∧
     2 * Z.abs (h' * w - h * w') ≤ w) ∧
  (w ≤ h →
     h' = MAX_DIM ∧ w' = Math_round (w * MAX_DIM) h ∧
     2 * Z.abs (w' * h - w * h') ≤ h).
Proof.
  intros Hbig w h w' h'. subst w' h'. unfold canvasSize.
  fold w h. unfold MAX_DIM in *.
  destruct (Z.gtb_spec w h) as [Hwh|Hwh]; cbn [andb].
  - destruct (Z.gtb_spec w 1200) as [Hw|Hw]; [|lia].
    cbn [fst snd].
    pose proof (Math_round_bounds (h * 1200) w ltac:(lia)) as Hr.
    split_and!; [nia | intros _; split_and!; [done|done|nia] | lia].
  - destruct (Z.gtb_spec h 1200) as [Hh|Hh]; [|lia].
    cbn [fst snd].
    pose proof (Math_round_bounds (w * 1200) h ltac:(lia)) as Hr.
    split_and!; [nia | lia | intros _; split_and!; [done|done|nia]].
Qed.

Lemma canvasSize_capped_witness :
  let img := {| width := 4000; height := 3000 |} in
  Z.max (canvasSize img).1 (canvasSize img).2 ≤ MAX_DIM ∧
  (3000 < 4000 →
     (canvasSize img).1 = MAX_DIM ∧
     (canvasSize img).2 = Math_round (3000 * MAX_DIM) 4000 ∧
     2 * Z.abs ((canvasSize img).2 * 4000 - 3000 * (canvasSize img).1) ≤ 4000) ∧
  (4000 ≤ 3000 →
     (canvasSize img).2 = MAX_DIM ∧
     (canvasSize img).1 = Math_round (4000 * MAX_DIM) 3000 ∧
     2 * Z.abs ((canvasSize img).1 * 3000 - 4000 * (canvasSize img).2) ≤ 3000).
Proof.
  apply (canvasSize_capped {| width := 4000; height := 3000 |}).
  vm_compute. reflexivity.
Defined.

Example canvasSize_landscape :
  canvasSize {| width := 4000; height := 3000 |} = (1200, 900).
Proof. reflexivity. Qed.

Example canvasSize_portrait :
  canvasSize {| width := 1001; height := 2000 |} = (601, 1200).
Proof. reflexivity. Qed.

Example canvasSize_small :
  canvasSize {| width := 800; height := 600 |} = (800, 600).
Proof. reflexivity. Qed.

(** ** Drag-and-drop ordering *)

Section Reinsert.
Context {A : Type}.
Implicit Types l : list A.

(** The list after [x], found at [i], was removed and put back at [j]. *)
Lemma splice_out_in l i j x :
  l !! i = Some x →
  (splice i 1 [] l).1 = [x] ∧
  (splice j 0 [x] (splice i 1 [] l).2).2
    = take j (delete i l) ++ x :: drop j (delete i l).
Proof.
  intros Hx. unfold splice. cbn [fst snd app]. split.
  - apply list_eq. intros [|k]; cbn.
    + rewrite lookup_take_lt, lookup_drop, Nat.add_0_r by lia. done.
    + rewrite lookup_take_ge by lia. done.
  - rewrite Nat.add_0_r, Nat.add_1_r, <- delete_take_drop. done.
Qed.

Lemma reinsert_Permutation l i j x :
  l !! i = Some x → take j (delete i l) ++ x :: drop j (delete i l) ≡ₚ l.
Proof.
  intros Hx. rewrite <- Permutation_middle, take_drop.
  symmetry. by apply delete_Permutation.
Qed.

Lemma reinsert_lookup l i j x :
  (j < length l)%nat → l !! i = Some x →
  (take j (delete i l) ++ x :: drop j (delete i l)) !! j = Some x.
Proof.
  intros Hj Hx.
  assert (length (delete i l) = length l - 1)%nat as Hlen
    by (apply length_delete; eauto).
  rewrite lookup_app_r; rewrite length_take_le by lia; [|lia].
  by rewrite Nat.sub_diag.
Qed.

Lemma reinsert_delete l i j x :
  (j < length l)%nat → l !! i = Some x →
  delete j (take j (delete i l) ++ x :: drop j (delete i l)) = delete i l.
Proof.
  intros Hj Hx.
  assert (length (delete i l) = length l - 1)%nat as Hlen
    by (apply length_delete; eauto).
  rewrite <- (length_take_le (delete i l) j) at 1 by lia.
  rewrite delete_middle. apply take_drop.
Qed.

(** Two lists that agree once the moved item is taken out hold every other
    item at the place [position_after] tells. *)
Lemma lookup_position_after l l' i j k :
  delete j l' = delete i l → k ≠ i →
  l' !! position_after i j k = l !! k.
Proof.
  intros Hdel Hk. unfold position_after.
  set (k' := if decide (k < i)%nat then k else (k - 1)%nat).
  assert (delete i l !! k' = l !! k) as <-.
  { subst k'. case_decide.
    - by apply list_lookup_delete_lt.
    - rewrite list_lookup_delete_ge by lia. f_equal. lia. }
  rewrite <- Hdel. case_decide.
  - by rewrite list_lookup_delete_lt.
  - by rewrite list_lookup_delete_ge by lia.
Qed.

End Reinsert.

Lemma position_after_mono i j k1 k2 :
  k1 ≠ i → k2 ≠ i → (k1 < k2)%nat →
  (position_after i j k1 < position_after i j k2)%nat.
Proof. unfold position_after. intros. repeat case_decide; lia. Qed.

Lemma position_after_not_target i j k :
  k ≠ i → position_after i j k ≠ j.
Proof. unfold position_after. intros. repeat case_decide; lia. Qed.

Section Drop.
Variable network_ok : Write → bool.
Implicit Types (st : State) (db : Collection) (l : list Category).

(** [handleDrop] once its guard is passed and the dragged slot exists. *)
Lemma handleDrop_unfold st db i j x :
  draggedIndex st = Some i → i ≠ j → categories st !! i = Some x →
  let new :=
    take j (delete i (categories st)) ++ x :: drop j (delete i (categories st)) in
  let st' :=
    {| categories := new; loadingCategories := loadingCategories st;
       draggedIndex := None |} in
  handleDrop network_ok st db j =
    if (batchUpdates 0 new).2 then
      {| state := st'; stored := commit network_ok db (batchUpdates 0 new).1;
         issued := (batchUpdates 0 new).1; console := []; threw := true |}
    else
      {| state := st'; stored := commit network_ok db (batchUpdates 0 new).1;
         issued := (batchUpdates 0 new).1;
         console :=
           if all_fulfilled network_ok db (batchUpdates 0 new).1 then []
           else ["Failed to update category order:"%string];
         threw := false |}.
Proof.
  intros Hdrag Hij Hx new st'. unfold handleDrop. rewrite Hdrag.
  rewrite decide_False by done.
  destruct (splice_out_in (categories st) i j x Hx) as [Hrem Hnew].
  destruct (splice i 1 [] (categories st)) as [removed rest].
  cbn [fst snd] in Hrem, Hnew. subst removed.
  cbn [lookup list_lookup mjoin option_join].
  destruct (splice j 0 [x] rest) as [? new']. cbn [snd] in Hnew. subst new'.
  fold new. destruct (batchUpdates 0 new) as [calls type_error]. done.
Qed.

Lemma batchUpdates_defined idx l :
  batchUpdates idx (Some <$> l)
    = (imap (λ k cat, (id cat, (idx + k)%nat)) l, false).
Proof.
  revert idx. induction l as [|cat l IH]; intros idx; [done|].
  cbn [fmap list_fmap batchUpdates]. 
  change (list_fmap _ _ Some l) with (Some <$> l).
  rewrite IH, imap_cons. rewrite Nat.add_0_r. do 2 f_equal.
  apply imap_ext. intros k c _. cbn. f_equal. lia.
Qed.

Lemma handleDrop_defined st db i j l x :
  categories st = Some <$> l → draggedIndex st = Some i → i ≠ j →
  l !! i = Some x →
  let l' := take j (delete i l) ++ x :: drop j (delete i l) in
  let calls := imap (λ idx cat, (id cat, idx)) l' in
  handleDrop network_ok st db j =
    {| state := {| categories := Some <$> l';
                   loadingCategories := loadingCategories st;
                   draggedIndex := None |};
       stored := commit network_ok db calls;
       issued := calls;
       console := if all_fulfilled network_ok db calls then []
                  else ["Failed to update category order:"%string];
       threw := false |}.
Proof.
  intros Hcats Hdrag Hij Hx l' calls.
  rewrite (handleDrop_unfold st db i j (Some x)); [|done|done|].
  - rewrite Hcats, <- list_fmap_delete, <- fmap_take, <- fmap_drop.
    change (Some x :: (Some <$> drop j (delete i l)))
      with (Some <$> x :: drop j (delete i l)).
    rewrite <- fmap_app. fold l'. rewrite batchUpdates_defined. done.
  - rewrite Hcats, list_lookup_fmap, Hx. done.
Qed.

Lemma commit_lookup_other db calls key :
  key ∉ calls.*1 → commit network_ok db calls !! key = db !! key.
Proof.
  unfold commit. revert db. induction calls as [|w calls IH]; intros db Hkey; [done|].
  cbn [fmap list_fmap] in Hkey. apply not_elem_of_cons in Hkey as [Hw Hkey].
  cbn [foldl]. rewrite IH by done.
  unfold perform, set_order. destruct (network_ok w); [|done].
  destruct (db !! w.1); [|done]. cbn.
  by apply lookup_insert_ne.
Qed.

Lemma commit_lookup_written db calls key n :
  NoDup calls.*1 → (key, n) ∈ calls →
  network_ok (key, n) = true → is_Some (db !! key) →
  ∃ d, commit network_ok db calls !! key = Some d ∧
       doc_order d = Some (Z.of_nat n).
Proof.
  unfold commit. revert db.
  induction calls as [|w calls IH]; intros db Hnodup Hin Hnet Hdoc;
    [by apply elem_of_nil in Hin|].
  cbn [fmap list_fmap] in Hnodup. apply NoDup_cons in Hnodup as [Hfresh Hnodup].
  cbn [foldl]. apply elem_of_cons in Hin as [<-|Hin].
  - fold (commit network_ok (default db (perform network_ok db (key, n))) calls).
    rewrite commit_lookup_other by done.
    unfold perform, set_order. rewrite Hnet. cbn [fst snd].
    destruct Hdoc as [d Hd]. rewrite Hd. cbn.
    rewrite lookup_insert_eq. by eexists.
  - apply IH; [done..|].
    assert (w.1 ≠ key) as Hne.
    { intros <-. apply Hfresh. apply list_elem_of_fmap. by exists (w.1, n). }
    unfold perform, set_order. destruct (network_ok w); [|done].
    destruct (db !! w.1); [|done]. cbn. by rewrite lookup_insert_ne.
Qed.

End Drop.

Section DropClaims.
Variable network_ok : Write → bool.
Implicit Types (st : State) (db : Collection) (l : list Category).

(** C3.  Dropping the item dragged from index [i] on index [j] (two
    different indices of the list) leaves a permutation of the list in
    which the moved item stands at [j]; the other items are the same list
    as before, so each of them is found at [position_after i j] of its old
    position, and that map keeps the order of any two of them. *)
Theorem handleDrop_reorders st db i j :
  draggedIndex st = Some i → i ≠ j →
  (i < length (categories st))%nat → (j < length (categories st))%nat →
  let before := categories st in
  let after := categories (state (handleDrop network_ok st db j)) in
  after ≡ₚ before ∧
  after !! j = before !! i ∧
  delete j after = delete i before ∧
  (∀ k, k ≠ i → after !! position_after i j k = before !! k) ∧
  (∀ k1 k2, k1 ≠ i → k2 ≠ i → (k1 < k2)%nat →
     (position_after i j k1 < position_after i j k2)%nat).
Proof.
  intros Hdrag Hij Hi Hj before after.
  destruct (lookup_lt_is_Some_2 _ _ Hi) as [x Hx].
  assert (after = take j (delete i before) ++ x :: drop j (delete i before))
    as Hafter.
  { subst after before. rewrite (handleDrop_unfold network_ok st db i j x) by done.
    by destruct (batchUpdates _ _).2. }
  assert (delete j after = delete i before) as Hdel.
  { rewrite Hafter. by apply reinsert_delete. }
  split_and!.
  - rewrite Hafter. by apply reinsert_Permutation.
  - rewrite Hafter. subst before. rewrite Hx. by apply reinsert_lookup.
  - done.
  - intros k Hk. by apply lookup_position_after.
  - apply position_after_mono.
Qed.

(** C5.  A reorder of [N] categories issues exactly one write per category,
    the one for the category now at position [idx] setting [order] to
    [idx]; the values written are 0, 1, ..., N-1, and when the writes go
    through the stored [order] of the category at each position is that
    position. *)
Theorem handleDrop_writes_dense st db i j l :
  categories st = Some <$> l → draggedIndex st = Some i → i ≠ j →
  (i < length l)%nat →
  let out := handleDrop network_ok st db j in
  ∃ l',
    categories (state out) = Some <$> l' ∧
    issued out = imap (λ idx cat, (id cat, idx)) l' ∧
    (issued out).*1 ≡ₚ id <$> l ∧
    (issued out).*2 = seq 0 (length l) ∧
    (NoDup (id <$> l) →
     (∀ w, w ∈ issued out → is_Some (perform network_ok db w)) →
     ∀ idx cat, l' !! idx = Some cat →
       ∃ d, stored out !! id cat = Some d ∧
            doc_order d = Some (Z.of_nat idx)).
Proof.
  intros Hcats Hdrag Hij Hi out.
  destruct (lookup_lt_is_Some_2 _ _ Hi) as [x Hx].
  subst out. rewrite (handleDrop_defined network_ok st db i j l x) by done.
  cbn [state categories issued stored].
  set (l' := take j (delete i l) ++ x :: drop j (delete i l)).
  assert (l' ≡ₚ l) as Hperm by by apply reinsert_Permutation.
  assert ((imap (λ idx cat, (id cat, idx)) l').*1 = id <$> l') as Hids.
  { rewrite fmap_imap. apply imap_const. }
  exists l'. split_and!; [done|done| | |].
  - by rewrite Hids, Hperm.
  - rewrite fmap_imap, <- (Permutation_length Hperm).
    apply list_eq. intros k. rewrite list_lookup_imap. cbn.
    destruct (l' !! k) eqn:Hk; cbn.
    + symmetry. apply lookup_seq. split; [done|]. by eapply lookup_lt_Some.
    + symmetry. apply lookup_seq_ge. by apply lookup_ge_None.
  - intros Hnodup Hok idx cat Hcat.
    assert ((id cat, idx) ∈ imap (λ idx cat, (id cat, idx)) l') as Hin
      by by apply (elem_of_lookup_imap_2 (λ idx cat, (id cat, idx))).
    specialize (Hok _ Hin). unfold perform, set_order in Hok. cbn [fst snd] in Hok.
    destruct (network_ok (id cat, idx)) eqn:Hnet; [|by destruct Hok].
    apply commit_lookup_written; [|done|done|].
    + by rewrite Hids, Hperm.
    + destruct (db !! id cat); [by eexists|by destruct Hok].
Qed.

(** C6.  When one of the writes issued by [handleDrop] fails, the error is
    written to the console and nothing else happens: the handler returns,
    the component state is the reordered one (the one a run without
    failure leaves, not the order before the drop when the categories are
    distinct), and the writes issued are the same single write per category
    (no write is issued again). *)
Theorem handleDrop_failure_logged st db i j l w :
  categories st = Some <$> l → draggedIndex st = Some i → i ≠ j →
  (i < length l)%nat → (j < length l)%nat →
  let out := handleDrop network_ok st db j in
  let fine := handleDrop (λ _, true) st db j in
  w ∈ issued out → perform network_ok db w = None →
  console out = ["Failed to update category order:"%string] ∧
  threw out = false ∧
  state out = state fine ∧
  categories (state out) !! j = categories st !! i ∧
  (NoDup l → categories (state out) ≠ categories st) ∧
  issued out = issued fine ∧
  length (issued out) = length l.
Proof.
  intros Hcats Hdrag Hij Hi Hj out fine.
  destruct (lookup_lt_is_Some_2 _ _ Hi) as [x Hx].
  subst out fine. rewrite !(handleDrop_defined _ st db i j l x) by done.
  cbn [state categories issued console threw].
  set (l' := take j (delete i l) ++ x :: drop j (delete i l)).
  intros Hw Hfail.
  assert (l' !! j = Some x) as Hl'j by by apply reinsert_lookup.
  split_and!; [|done|done| | |done|].
  - destruct (all_fulfilled _ _ _) eqn:Hall; [|done].
    unfold all_fulfilled in Hall. apply Is_true_true, forallb_True in Hall.
    rewrite Forall_forall in Hall. specialize (Hall w Hw).
    apply bool_decide_unpack in Hall. rewrite Hfail in Hall. by destruct Hall.
  - by rewrite Hcats, !list_lookup_fmap, Hl'j, Hx.
  - intros Hnodup Heq. rewrite Hcats in Heq.
    apply (inj (fmap Some)) in Heq.
    apply Hij. apply (NoDup_lookup l i j x); [done|done|].
    by rewrite <- Heq.
  - rewrite length_imap. apply Permutation_length.
    by apply reinsert_Permutation.
Qed.

(** C10.  Without a drag in progress, or when the item is dropped on the
    place it was dragged from, [handleDrop] changes nothing: the state
    (the list and the dragged index) is the one before, no write is issued
    and the collection and the console are untouched. *)
Theorem handleDrop_noop st db dropIndex :
  draggedIndex st = None ∨ draggedIndex st = Some dropIndex →
  handleDrop network_ok st db dropIndex =
    {| state := st; stored := db; issued := []; console := [];
       threw := false |}.
Proof.
  intros [Hnone|Hsame]; unfold handleDrop.
  - by rewrite Hnone.
  - rewrite Hsame. by rewrite decide_True.
Qed.

End DropClaims.

(** ** The order of the listed categories *)

Section SortFacts.
Context {A : Type}.
Variable compareFn : A → A → number.
Variable R : A → A → Prop.
Hypothesis R_trans : ∀ x y z, R x y → R y z → R x z.
Hypothesis R_of_not_after : ∀ x y, number_positive (compareFn x y) = false → R x y.
Hypothesis R_of_after : ∀ x y, number_positive (compareFn x y) = true → R y x.

Lemma sort_insert_Permutation x l : sort_insert compareFn x l ≡ₚ x :: l.
Proof.
  induction l as [|y l IH]; cbn; [done|].
  destruct (number_positive (compareFn x y)); [|done].
  rewrite IH. apply Permutation_swap.
Qed.

Lemma sort_Permutation l : sort compareFn l ≡ₚ l.
Proof.
  induction l as [|x l IH]; cbn; [done|].
  by rewrite sort_insert_Permutation, IH.
Qed.

Lemma sort_insert_sorted x l :
  StronglySorted R l → StronglySorted R (sort_insert compareFn x l).
Proof.
  induction 1 as [|y l Hsorted IH Hy]; cbn.
  - repeat constructor.
  - destruct (number_positive (compareFn x y)) eqn:Hcmp.
    + constructor; [done|].
      rewrite sort_insert_Permutation. constructor; [by apply R_of_after|done].
    + constructor; [by constructor|].
      constructor; [by apply R_of_not_after|].
      eapply Forall_impl; [exact Hy|]. intros z Hz.
      eapply R_trans; [|exact Hz]. by apply R_of_not_after.
Qed.

Lemma sort_sorted l : StronglySorted R (sort compareFn l).
Proof.
  induction l as [|x l IH]; cbn; [constructor|]. by apply sort_insert_sorted.
Qed.

End SortFacts.

Lemma ranks_before_trans a b c :
  ranks_before a b → ranks_before b c → ranks_before a c.
Proof.
  unfold ranks_before.
  destruct (order a), (order b), (order c); try done; lia.
Qed.

Lemma compareCategories_not_after a b :
  number_positive (compareCategories a b) = false → ranks_before a b.
Proof.
  unfold compareCategories, ranks_before.
  destruct (order a) as [x|], (order b) as [y|]; cbn.
  - destruct (Z.eqb_spec x y) as [->|Hxy]; cbn; intros H%Z.ltb_ge; lia.
  - done.
  - done.
  - intros H%Z.ltb_ge. lia.
Qed.

Lemma compareCategories_after a b :
  number_positive (compareCategories a b) = true → ranks_before b a.
Proof.
  unfold compareCategories, ranks_before.
  destruct (order a) as [x|], (order b) as [y|]; cbn.
  - destruct (Z.eqb_spec x y) as [->|Hxy]; cbn; intros H%Z.ltb_lt; lia.
  - done.
  - done.
  - intros H%Z.ltb_lt. lia.
Qed.

(** C9.  The list the snapshot listener puts in the state holds the fetched
    categories, each once, sorted by ascending [order], the categories
    without [order] after all the others, and those of equal (or equally
    absent) [order] by creation time, the most recent first. *)
Theorem onCategoriesSnapshot_sorted docs st :
  ∃ cats,
    categories (onCategoriesSnapshot docs st) = Some <$> cats ∧
    cats ≡ₚ fetch <$> docs ∧
    StronglySorted ranks_before cats.
Proof.
  exists (sort compareCategories (fetch <$> docs)). split_and!.
  - done.
  - apply sort_Permutation.
  - apply sort_sorted.
    + apply ranks_before_trans.
    + apply compareCategories_not_after.
    + apply compareCategories_after.
Qed.

(** ** Name normalisation *)

Lemma isWhiteSpace_spec c :
  isWhiteSpace c = true ↔
    9 ≤ c ≤ 13 ∨ c = 32 ∨ c = 160 ∨ c = 5760 ∨ 8192 ≤ c ≤ 8202 ∨ c = 8232 ∨
    c = 8233 ∨ c = 8239 ∨ c = 8287 ∨ c = 12288 ∨ c = 65279.
Proof.
  unfold isWhiteSpace.
  rewrite !orb_true_iff, !andb_true_iff, !Z.leb_le, !Z.eqb_eq. tauto.
Qed.

Lemma not_isWhiteSpace_spec c :
  isWhiteSpace c = false ↔
    ¬ (9 ≤ c ≤ 13 ∨ c = 32 ∨ c = 160 ∨ c = 5760 ∨ 8192 ≤ c ≤ 8202 ∨ c = 8232 ∨
       c = 8233 ∨ c = 8239 ∨ c = 8287 ∨ c = 12288 ∨ c = 65279).
Proof. rewrite <- isWhiteSpace_spec. by destruct (isWhiteSpace c). Qed.

Lemma not_isWhiteSpace_not_SPACE c : isWhiteSpace c = false → (c =? SPACE) = false.
Proof. rewrite not_isWhiteSpace_spec, Z.eqb_neq. unfold SPACE. lia. Qed.

(** *** Case mapping keeps words words *)

Ltac case_tests :=
  repeat match goal with
    | |- context [if ?b then _ else _] => destruct b eqn:?
    end;
  repeat match goal with
    | H : _ && _ = true |- _ => apply andb_true_iff in H as [? ?]
    | H : _ && _ = false |- _ => apply andb_false_iff in H
    | H : negb _ = true |- _ => apply negb_true_iff in H
    | H : negb _ = false |- _ => apply negb_false_iff in H
    | H : (_ <=? _) = true |- _ => apply Z.leb_le in H
    | H : (_ <=? _) = false |- _ => apply Z.leb_gt in H
    | H : (_ =? _) = true |- _ => apply Z.eqb_eq in H
    | H : (_ =? _) = false |- _ => apply Z.eqb_neq in H
    end.

Lemma toUpperCase_unit_nonempty c : toUpperCase_unit c ≠ [].
Proof. unfold toUpperCase_unit. by case_tests. Qed.

Lemma toUpperCase_unit_nows c :
  isWhiteSpace c = false → nows (toUpperCase_unit c).
Proof.
  rewrite not_isWhiteSpace_spec. intros Hc.
  unfold toUpperCase_unit. case_tests;
    repeat (constructor; [apply not_isWhiteSpace_spec; lia|]); constructor.
Qed.

Lemma toLowerCase_unit_nows c :
  isWhiteSpace c = false → isWhiteSpace (toLowerCase_unit c) = false.
Proof.
  rewrite !not_isWhiteSpace_spec. intros Hc.
  unfold toLowerCase_unit. case_tests; lia.
Qed.

Lemma toLowerCase_unit_idemp c :
  toLowerCase_unit (toLowerCase_unit c) = toLowerCase_unit c.
Proof.
  unfold toLowerCase_unit at 2. case_tests; unfold toLowerCase_unit; case_tests; lia.
Qed.

(** But for the sharp s, the upper case of a code unit is one code unit,
    which is its own upper case. *)
Lemma toUpperCase_unit_idemp c :
  c ≠ 223 → ∃ u, toUpperCase_unit c = [u] ∧ toUpperCase_unit u = [u].
Proof.
  intros Hc. unfold toUpperCase_unit at 1. case_tests; try lia;
    eexists; (split; [reflexivity|]);
    unfold toUpperCase_unit; case_tests; try lia; done.
Qed.

(** *** Trimming *)

Lemma trimStart_head s :
  trimStart s = [] ∨ ∃ c t, trimStart s = c :: t ∧ isWhiteSpace c = false.
Proof.
  induction s as [|c s IH]; cbn; [by left|].
  destruct (isWhiteSpace c) eqn:Hc; [done|]. right. by exists c, s.
Qed.

Lemma trimEnd_head c t :
  isWhiteSpace c = false → ∃ t', trimEnd (c :: t) = c :: t'.
Proof.
  intros Hc. cbn. rewrite Hc. destruct (trimEnd t); by eexists.
Qed.

Lemma trimEnd_cons_fixed c t :
  trimEnd (c :: t) = c :: t ↔
    (t = [] ∧ isWhiteSpace c = false) ∨ (t ≠ [] ∧ trimEnd t = t).
Proof.
  cbn. destruct (trimEnd t) as [|c' r] eqn:Hr.
  - destruct (isWhiteSpace c); split.
    + done.
    + intros [[_ ?]|[? <-]]; done.
    + intros [= <-]. by left.
    + intros [[-> _]|[? <-]]; done.
  - split.
    + intros [= <-]. by right.
    + intros [[-> _]|[_ <-]]; done.
Qed.

Lemma trimEnd_idemp s : trimEnd (trimEnd s) = trimEnd s.
Proof.
  induction s as [|c s IH]; [done|].
  cbn [trimEnd]. destruct (trimEnd s) as [|c' r] eqn:Hr.
  - destruct (isWhiteSpace c) eqn:Hc; [done|]. cbn. by rewrite Hc.
  - apply trimEnd_cons_fixed. by right.
Qed.

Lemma trimEnd_word w : word w → trimEnd w = w.
Proof.
  intros [Hne Hw]. induction Hw as [|c w Hc Hw IH]; [done|].
  apply trimEnd_cons_fixed. destruct w as [|c' w]; [by left|].
  right. split; [done|]. by apply IH.
Qed.

Lemma trimEnd_app w t : t ≠ [] → trimEnd t = t → trimEnd (w ++ t) = w ++ t.
Proof.
  intros Hne Ht. induction w as [|c w IH]; [done|].
  apply trimEnd_cons_fixed. right. split; [by destruct w, t|done].
Qed.

(** A trimmed string is empty or begins and ends outside white space. *)
Lemma trim_cases s :
  trim s = [] ∨
  ∃ c t, trim s = c :: t ∧ isWhiteSpace c = false ∧ trimEnd (c :: t) = c :: t.
Proof.
  unfold trim. destruct (trimStart_head s) as [->|(c & t & -> & Hc)]; [by left|].
  right. destruct (trimEnd_head c t Hc) as [t' Ht']. exists c, t'.
  split_and!; [done|done|]. rewrite <- Ht'. apply trimEnd_idemp.
Qed.

Lemma trim_fixed c t :
  isWhiteSpace c = false → trimEnd (c :: t) = c :: t → trim (c :: t) = c :: t.
Proof. intros Hc Ht. unfold trim. cbn [trimStart]. by rewrite Hc. Qed.

(** *** The words of a string *)

Lemma good_cons_word c w ws : isWhiteSpace c = false → good (w :: ws) → good ((c :: w) :: ws).
Proof.
  intros Hc [_ Hws]. apply Forall_cons in Hws as [[_ Hw] Hws].
  split; [done|]. constructor; [|done]. split; [done|by constructor].
Qed.

Lemma split_replace_trimmed t :
  t ≠ [] → trimEnd t = t →
  match t with
  | [] => True
  | c :: _ =>
      if isWhiteSpace c then
        good (split SPACE (replace_whitespace_runs true t)) ∧
        ∃ ws, split SPACE (replace_whitespace_runs false t) = [] :: ws ∧ good ws
      else ∀ b, good (split SPACE (replace_whitespace_runs b t))
  end.
Proof.
  induction t as [|c t IH]; [done|]. intros _ Hfixed.
  apply trimEnd_cons_fixed in Hfixed as [[-> Hc]|[Hne Hfixed]].
  - rewrite Hc. intros b. cbn. rewrite Hc. cbn.
    rewrite (not_isWhiteSpace_not_SPACE c Hc).
    split; [done|]. repeat constructor; [done|done].
  - specialize (IH Hne Hfixed). destruct t as [|c' t]; [done|].
    assert (good (split SPACE (replace_whitespace_runs true (c' :: t)))) as Hrun.
    { destruct (isWhiteSpace c'); [apply IH|apply (IH true)]. }
    destruct (isWhiteSpace c) eqn:Hc.
    + change (replace_whitespace_runs true (c :: c' :: t))
        with (if isWhiteSpace c then replace_whitespace_runs true (c' :: t)
              else c :: replace_whitespace_runs false (c' :: t)).
      change (replace_whitespace_runs false (c :: c' :: t))
        with (if isWhiteSpace c
              then SPACE :: replace_whitespace_runs true (c' :: t)
              else c :: replace_whitespace_runs false (c' :: t)).
      rewrite Hc. split; [done|].
      exists (split SPACE (replace_whitespace_runs true (c' :: t))).
      split; [|done]. cbn [split]. by rewrite Z.eqb_refl.
    + intros b.
      assert (split SPACE (replace_whitespace_runs b (c :: c' :: t))
              = match split SPACE (replace_whitespace_runs false (c' :: t)) with
                | w :: ws => (c :: w) :: ws
                | [] => [[c]]
                end) as ->.
      { change (replace_whitespace_runs b (c :: c' :: t))
          with (if isWhiteSpace c
                then if b then replace_whitespace_runs true (c' :: t)
                     else SPACE :: replace_whitespace_runs true (c' :: t)
                else c :: replace_whitespace_runs false (c' :: t)).
        rewrite Hc. cbn [split]. by rewrite (not_isWhiteSpace_not_SPACE c Hc). }
      destruct (isWhiteSpace c').
      * destruct IH as [_ (ws & -> & Hws)]. destruct Hws as [Hne' Hws].
        split; [done|]. constructor; [|done].
        split; [done|]. by repeat constructor.
      * specialize (IH false).
        destruct (split SPACE (replace_whitespace_runs false (c' :: t)))
          as [|w ws]; [by destruct IH|].
        by apply good_cons_word.
Qed.

(** The words of a string: the one empty word when nothing remains of it
    after trimming, a list of words otherwise. *)
Lemma words_cases s :
  (trim s = [] ∧ words s = [[]]) ∨ (trim s ≠ [] ∧ good (words s)).
Proof.
  unfold words. destruct (trim_cases s) as [->|(c & t & -> & Hc & Hfixed)].
  - by left.
  - right. split; [done|].
    pose proof (split_replace_trimmed (c :: t) ltac:(done) Hfixed) as H.
    cbn beta iota in H. rewrite Hc in H. apply H.
Qed.

(** *** Joining words and splitting them again *)

Lemma join_cons_cons sep w w' ws :
  join sep (w :: w' :: ws) = w ++ sep :: join sep (w' :: ws).
Proof. done. Qed.

Lemma good_inv w ws : good (w :: ws) → word w ∧ (ws = [] ∨ good ws).
Proof.
  intros [_ Hws]. apply Forall_cons in Hws as [Hw Hws]. split; [done|].
  destruct ws; [by left|by right].
Qed.

Lemma join_good_head ws :
  good ws → ∃ c t, join SPACE ws = c :: t ∧ isWhiteSpace c = false.
Proof.
  destruct ws as [|w ws]; [by intros [? _]|].
  intros [[Hne Hw] _]%good_inv. destruct w as [|c w]; [done|].
  apply Forall_cons in Hw as [Hc _].
  destruct ws; cbn; by eexists _, _.
Qed.

Lemma join_good_nonempty ws : good ws → join SPACE ws ≠ [].
Proof. intros (c & t & -> & _)%join_good_head. done. Qed.

Lemma trimEnd_join ws : good ws → trimEnd (join SPACE ws) = join SPACE ws.
Proof.
  induction ws as [|w ws IH]; [by intros [? _]|].
  intros [Hw [->|Hws]]%good_inv; [by apply trimEnd_word|].
  destruct ws as [|w' ws]; [by destruct Hws|].
  rewrite join_cons_cons. apply trimEnd_app; [done|].
  apply trimEnd_cons_fixed. right. split; [by apply join_good_nonempty|by apply IH].
Qed.

Lemma trim_join ws : good ws → trim (join SPACE ws) = join SPACE ws.
Proof.
  intros Hws. destruct (join_good_head ws Hws) as (c & t & Heq & Hc).
  pose proof (trimEnd_join ws Hws) as Hfixed. rewrite Heq in Hfixed |- *.
  by apply trim_fixed.
Qed.

Lemma replace_word_app b w t :
  word w →
  replace_whitespace_runs b (w ++ t) = w ++ replace_whitespace_runs false t.
Proof.
  intros [Hne Hw]. revert b. induction Hw as [|c w Hc Hw IH]; [done|]. intros b.
  cbn. rewrite Hc. f_equal. destruct w as [|c' w]; [done|]. by apply IH.
Qed.

Lemma replace_join ws b :
  good ws → replace_whitespace_runs b (join SPACE ws) = join SPACE ws.
Proof.
  revert b. induction ws as [|w ws IH]; [by intros ? [? _]|].
  intros b [Hw [->|Hws]]%good_inv.
  - cbn [join]. rewrite <- (app_nil_r w) at 1.
    rewrite replace_word_app by done. apply app_nil_r.
  - destruct ws as [|w' ws]; [by destruct Hws|].
    rewrite join_cons_cons, replace_word_app by done. f_equal.
    change (replace_whitespace_runs false (SPACE :: join SPACE (w' :: ws)))
      with (SPACE :: replace_whitespace_runs true (join SPACE (w' :: ws))).
    f_equal. by apply IH.
Qed.

Lemma split_nows w : nows w → split SPACE w = [w].
Proof.
  induction 1 as [|c w Hc Hw IH]; [done|].
  cbn. by rewrite (not_isWhiteSpace_not_SPACE c Hc), IH.
Qed.

Lemma split_nows_app w t :
  nows w → split SPACE (w ++ SPACE :: t) = w :: split SPACE t.
Proof.
  induction 1 as [|c w Hc Hw IH]; [done|].
  cbn. by rewrite (not_isWhiteSpace_not_SPACE c Hc), IH.
Qed.

Lemma split_join ws : good ws → split SPACE (join SPACE ws) = ws.
Proof.
  induction ws as [|w ws IH]; [by intros [? _]|].
  intros [[_ Hw] [->|Hws]]%good_inv; [by apply split_nows|].
  destruct ws as [|w' ws]; [by destruct Hws|].
  rewrite join_cons_cons, split_nows_app by done. f_equal. by apply IH.
Qed.

Lemma words_join ws : good ws → words (join SPACE ws) = ws.
Proof.
  intros Hws. unfold words.
  by rewrite trim_join, replace_join, split_join.
Qed.

(** *** Capitalised words *)

Lemma capitalize_cons c r :
  capitalize (c :: r) = toUpperCase_unit c ++ toLowerCase r.
Proof. unfold capitalize, charAt, slice, toUpperCase. cbn. by rewrite app_nil_r. Qed.

Lemma capitalize_word w : word w → word (capitalize w).
Proof.
  intros [Hne Hw]. destruct w as [|c r]; [done|].
  apply Forall_cons in Hw as [Hc Hr]. rewrite capitalize_cons. split.
  - pose proof (toUpperCase_unit_nonempty c). by destruct (toUpperCase_unit c).
  - apply Forall_app. split; [by apply toUpperCase_unit_nows|].
    unfold toLowerCase. apply Forall_fmap.
    eapply Forall_impl; [exact Hr|]. intros x. apply toLowerCase_unit_nows.
Qed.

Lemma good_capitalize ws : good ws → good (map capitalize ws).
Proof.
  intros [Hne Hws]. split; [by destruct ws|].
  apply Forall_fmap. eapply Forall_impl; [exact Hws|].
  intros w. apply capitalize_word.
Qed.

Lemma capitalize_idemp w :
  head w ≠ Some 223 → capitalize (capitalize w) = capitalize w.
Proof.
  destruct w as [|c r]; [done|]. cbn [head]. intros Hc.
  destruct (toUpperCase_unit_idemp c) as (u & Hu & Huu); [congruence|].
  rewrite capitalize_cons, Hu. cbn [app]. rewrite capitalize_cons, Huu.
  cbn [app]. f_equal. unfold toLowerCase. rewrite <- list_fmap_compose.
  apply list_fmap_ext. intros _ x _. apply toLowerCase_unit_idemp.
Qed.

Lemma formatName_words s : formatName s = join SPACE (map capitalize (words s)).
Proof. done. Qed.

Lemma formatName_blank s : trim s = [] → formatName s = [].
Proof.
  intros Hs. rewrite formatName_words.
  destruct (words_cases s) as [[_ ->]|[? _]]; done.
Qed.

Lemma formatName_nonblank s :
  trim s ≠ [] → formatName s ≠ [] ∧ trim (formatName s) ≠ [].
Proof.
  intros Hs. rewrite formatName_words.
  destruct (words_cases s) as [[? _]|[_ Hws]]; [done|].
  apply good_capitalize in Hws. rewrite trim_join by done.
  split; by apply join_good_nonempty.
Qed.

Example formatName_sample :
  formatName (js "  south   INDIAN food ") = js "South Indian Food".
Proof. vm_compute. reflexivity. Qed.

Example formatName_sharp_s :
  formatName [223] = js "SS" ∧ formatName (js "SS") = js "Ss".
Proof. vm_compute. done. Qed.

(** C4 as stated, for every string, does not hold: the upper case of the
    sharp s (U+00DF) is the two letters "SS", and the second of them is
    put in lower case when the result is formatted again. *)
Lemma formatName_not_idempotent_sharp_s :
  formatName (formatName [223]) ≠ formatName [223].
Proof. vm_compute. discriminate. Qed.

(** C4, amended.  [formatName] is idempotent on the Latin-1 strings none of
    whose words begins with the sharp s.  (Latin-1 is the block on which
    the case tables above are those of Unicode; within it the sharp s is
    the one code unit whose upper case has two.) *)
Theorem formatName_idempotent s :
  Forall (λ c, 0 ≤ c ≤ 255) s →
  Forall (λ w, head w ≠ Some 223) (words s) →
  formatName (formatName s) = formatName s.
Proof.
  intros _ Hheads. rewrite (formatName_words s).
  destruct (words_cases s) as [[_ Hws]|[_ Hws]].
  - rewrite Hws. done.
  - rewrite formatName_words, words_join by by apply good_capitalize.
    f_equal. rewrite <- list_fmap_compose.
    apply Forall_fmap_ext. eapply Forall_impl; [exact Hheads|].
    intros w Hw. by apply capitalize_idemp.
Qed.

Lemma formatName_idempotent_witness :
  formatName (formatName (js "  south   INDIAN food "))
  = formatName (js "  south   INDIAN food ").
Proof.
  apply (formatName_idempotent (js "  south   INDIAN food ")).
  - apply (bool_decide_unpack _). vm_compute. exact I.
  - apply (bool_decide_unpack _). vm_compute. exact I.
Defined.

(** ** The names of the stored and of the listed categories *)

Lemma commit_doc_name network_ok calls db key d :
  commit network_ok db calls !! key = Some d →
  ∃ d0, db !! key = Some d0 ∧ doc_name d = doc_name d0.
Proof.
  unfold commit. revert db. induction calls as [|w calls IH]; intros db; cbn [foldl].
  - intros Hd. by exists d.
  - intros (d1 & Hd1 & ->)%IH.
    unfold perform, set_order in Hd1. destruct (network_ok w); [|by exists d1].
    destruct (db !! w.1) as [dw|] eqn:Hw; [|by exists d1]. cbn in Hd1.
    destruct (decide (w.1 = key)) as [<-|Hne].
    + rewrite lookup_insert_eq in Hd1. injection Hd1 as <-. by exists dw.
    + rewrite lookup_insert_ne in Hd1 by done. by exists d1.
Qed.

Lemma handleDrop_stored network_ok st db dropIndex :
  ∃ calls, stored (handleDrop network_ok st db dropIndex)
           = commit network_ok db calls.
Proof.
  unfold handleDrop. destruct (draggedIndex st) as [i|]; [|by exists []].
  case_decide; [by exists []|].
  destruct (splice i 1 [] (categories st)) as [removed rest].
  destruct (splice dropIndex 0 _ rest) as [? new].
  destruct (batchUpdates 0 new) as [calls []]; by exists calls.
Qed.

Lemma handleSubmit_names_kept server dlg db :
  names_kept db → names_kept (handleSubmit server dlg db).1.2.
Proof.
  intros Hdb. unfold handleSubmit.
  destruct (trim (AddCategory.name dlg)) as [|c t] eqn:Htrim; [done|].
  destruct (truthy (image dlg)); [|done].
  destruct server as [[key now]|]; [|done]. cbn [fst snd].
  intros key' d. destruct (decide (key = key')) as [<-|Hne].
  - rewrite lookup_insert_eq. intros [= <-]. cbn. eexists. split; [done|].
    apply formatName_nonblank. by rewrite Htrim.
  - rewrite lookup_insert_ne by done. apply Hdb.
Qed.

Lemma reachable_names_kept db : reachable db → names_kept db.
Proof.
  induction 1 as [|server dlg db _ IH|network_ok st db j _ IH|key db _ IH].
  - intros key d Hd. by rewrite lookup_empty in Hd.
  - by apply handleSubmit_names_kept.
  - destruct (handleDrop_stored network_ok st db j) as [calls ->].
    intros key d (d0 & Hd0 & ->)%commit_doc_name. by eapply IH.
  - intros key' d Hd. apply lookup_delete_Some in Hd as [_ Hd]. by eapply IH.
Qed.

Lemma trim_nonblank_nonempty n : trim n ≠ [] → n ≠ [].
Proof. by intros Hn ->. Qed.

(** C8 as stated, for every name present on a stored category, does not
    hold: a stored name made of two spaces is a name, [formatName] of it is
    empty, and the listener lists it as the empty string, which
    [formatName] leaves empty. *)
Lemma category_name_blank_listed_empty :
  doc_name {| doc_name := Some (js "  "); doc_imageUrl := None;
              doc_createdAt := None; doc_order := None |} = Some (js "  ") ∧
  formatName (js "  ") = [] ∧
  AdminDashboard.name
    (fetch ("x", {| doc_name := Some (js "  "); doc_imageUrl := None;
                    doc_createdAt := None; doc_order := None |})) = Some [] ∧
  formatName [] = [].
Proof. vm_compute. done. Qed.

(** C8, amended.  In every collection the handlers produce from the empty
    one, each stored category has a name that is non-empty and stays so
    under [formatName], and so does the name of each category that the
    snapshot listener lists from such a collection.  For any document at
    all whose name is absent, empty or not made of white space only, the
    name the listener lists is non-empty and stays so under [formatName];
    it is "Unnamed" when the stored name is absent or empty. *)
Theorem category_names_nonempty db :
  reachable db →
  (∀ key d, db !! key = Some d →
     ∃ n, doc_name d = Some n ∧ n ≠ [] ∧ formatName n ≠ []) ∧
  (∀ docs st cat,
     (∀ key d, (key, d) ∈ docs → db !! key = Some d) →
     Some cat ∈ categories (onCategoriesSnapshot docs st) →
     ∃ n, AdminDashboard.name cat = Some n ∧ n ≠ [] ∧ formatName n ≠ []) ∧
  (∀ key d,
     (∀ n, doc_name d = Some n → n = [] ∨ trim n ≠ []) →
     ∃ m, AdminDashboard.name (fetch (key, d)) = Some m ∧
          m ≠ [] ∧ formatName m ≠ [] ∧
          (truthy (doc_name d) = false → m = js "Unnamed")).
Proof.
  intros Hkept%reachable_names_kept. split_and!.
  - intros key d (n & Hn & Htrim)%Hkept. exists n.
    split_and!; [done|by apply trim_nonblank_nonempty|by apply formatName_nonblank].
  - intros docs st cat Hdocs Hcat. cbn [onCategoriesSnapshot categories] in Hcat.
    apply list_elem_of_fmap in Hcat as (cat' & [= <-] & Hcat).
    rewrite sort_Permutation in Hcat.
    apply list_elem_of_fmap in Hcat as ([key d] & -> & Hd).
    destruct (Hkept key d (Hdocs _ _ Hd)) as (n & Hn & Htrim).
    unfold fetch. cbn [fst snd AdminDashboard.name]. rewrite Hn. cbn [default].
    pose proof (trim_nonblank_nonempty n Htrim) as Hne.
    destruct n as [|c n]; [done|]. cbn [truthy].
    destruct (formatName_nonblank (c :: n) Htrim) as [Hf Hft].
    eexists. split_and!; [done|done|by apply formatName_nonblank].
  - intros key d Hname. unfold fetch. cbn [fst snd AdminDashboard.name].
    destruct (doc_name d) as [[|c n]|] eqn:Hd;
      cbn [truthy default from_option Datatypes.id].
    + eexists. split_and!; [done|by vm_compute|by vm_compute|done].
    + destruct (Hname (c :: n) eq_refl) as [?|Htrim]; [done|].
      destruct (formatName_nonblank (c :: n) Htrim) as [Hf Hft].
      eexists. split_and!; [done|done|by apply formatName_nonblank|done].
    + eexists. split_and!; [done|by vm_compute|by vm_compute|done].
Qed.

(** ** Sample runs *)

Example handleDrop_sample :
  let out := handleDrop (λ _, true) (sample_state (Some 0%nat)) sample_db 2 in
  (λ c : option Category, id <$> c) <$> categories (state out) = [Some "b"; Some "c"; Some "a"] ∧
  issued out = [("b", 0%nat); ("c", 1%nat); ("a", 2%nat)] ∧
  (λ key : string, stored out !! key ≫= doc_order) <$> ["a"; "b"; "c"]
    = [Some 2; Some 0; Some 1] ∧
  console out = [] ∧ threw out = false.
Proof. vm_compute. done. Qed.

(** A dragged index past the end of the list (the list shrank since the
    drag began): the array gets an [undefined] slot, the write before that
    slot is issued and the handler ends with a [TypeError]. *)
Example handleDrop_stale_index :
  let out := handleDrop (λ _, true) (sample_state (Some 5%nat)) sample_db 1 in
  (λ c : option Category, id <$> c) <$> categories (state out)
    = [Some "a"; None; Some "b"; Some "c"] ∧
  issued out = [("a", 0%nat)] ∧ console out = [] ∧ threw out = true.
Proof. vm_compute. done. Qed.

(** The listener does not itself guard a name made of white space only. *)
Example fetch_blank_name :
  AdminDashboard.name
    (fetch ("x", {| doc_name := Some (js "  "); doc_imageUrl := None;
                    doc_createdAt := None; doc_order := None |}))
  = Some [].
Proof. vm_compute. reflexivity. Qed.

Lemma handleDrop_reorders_witness :
  let before := categories (sample_state (Some 0%nat)) in
  let after :=
    categories (state (handleDrop lossy (sample_state (Some 0%nat)) sample_db 2)) in
  after ≡ₚ before ∧
  after !! 2%nat = before !! 0%nat ∧
  delete 2%nat after = delete 0%nat before ∧
  (∀ k, k ≠ 0%nat → after !! position_after 0 2 k = before !! k) ∧
  (∀ k1 k2, k1 ≠ 0%nat → k2 ≠ 0%nat → (k1 < k2)%nat →
     (position_after 0 2 k1 < position_after 0 2 k2)%nat).
Proof.
  apply (handleDrop_reorders lossy (sample_state (Some 0%nat)) sample_db 0 2);
    [reflexivity | lia | cbn; lia | cbn; lia].
Defined.

Lemma handleDrop_writes_dense_witness :
  let out := handleDrop (λ _, true) (sample_state (Some 0%nat)) sample_db 2 in
  ∃ l',
    categories (state out) = Some <$> l' ∧
    issued out = imap (λ idx cat, (id cat, idx)) l' ∧
    (issued out).*1 ≡ₚ id <$> sample_list ∧
    (issued out).*2 = seq 0 (length sample_list) ∧
    (NoDup (id <$> sample_list) →
     (∀ w, w ∈ issued out → is_Some (perform (λ _, true) sample_db w)) →
     ∀ idx cat, l' !! idx = Some cat →
       ∃ d, stored out !! id cat = Some d ∧
            doc_order d = Some (Z.of_nat idx)).
Proof.
  apply (handleDrop_writes_dense (λ _, true) (sample_state (Some 0%nat))
           sample_db 0 2 sample_list); [reflexivity | reflexivity | lia | cbn; lia].
Defined.

Lemma handleDrop_failure_logged_witness :
  let out := handleDrop lossy (sample_state (Some 0%nat)) sample_db 2 in
  let fine := handleDrop (λ _, true) (sample_state (Some 0%nat)) sample_db 2 in
  console out = ["Failed to update category order:"%string] ∧
  threw out = false ∧
  state out = state fine ∧
  categories (state out) !! 2%nat = categories (sample_state (Some 0%nat)) !! 0%nat ∧
  (NoDup sample_list →
   categories (state out) ≠ categories (sample_state (Some 0%nat))) ∧
  issued out = issued fine ∧
  length (issued out) = length sample_list.
Proof.
  apply (handleDrop_failure_logged lossy (sample_state (Some 0%nat)) sample_db
           0 2 sample_list ("b", 0%nat));
    [reflexivity | reflexivity | lia | cbn; lia | cbn; lia | | reflexivity].
  vm_compute. apply list_elem_of_here.
Defined.

Lemma handleDrop_noop_witness :
  handleDrop lossy (sample_state (Some 1%nat)) sample_db 1 =
    {| state := sample_state (Some 1%nat); stored := sample_db; issued := [];
       console := []; threw := false |}.
Proof.
  apply (handleDrop_noop lossy (sample_state (Some 1%nat)) sample_db 1).
  right. reflexivity.
Defined.

Lemma category_names_nonempty_witness :
  let db := (handleSubmit (Some ("c1", 1700000000000)) sample_dialog ∅).1.2 in
  (∀ key d, db !! key = Some d →
     ∃ n, doc_name d = Some n ∧ n ≠ [] ∧ formatName n ≠ []) ∧
  (∀ docs st cat,
     (∀ key d, (key, d) ∈ docs → db !! key = Some d) →
     Some cat ∈ categories (onCategoriesSnapshot docs st) →
     ∃ n, AdminDashboard.name cat = Some n ∧ n ≠ [] ∧ formatName n ≠ []) ∧
  (∀ key d,
     (∀ n, doc_name d = Some n → n = [] ∨ trim n ≠ []) →
     ∃ m, AdminDashboard.name (fetch (key, d)) = Some m ∧
          m ≠ [] ∧ formatName m ≠ [] ∧
          (truthy (doc_name d) = false → m = js "Unnamed")).
Proof.
  apply (category_names_nonempty
           (handleSubmit (Some ("c1", 1700000000000)) sample_dialog ∅).1.2).
  apply reachable_submit, reachable_empty.
Defined.

Example handleSubmit_sample :
  (handleSubmit (Some ("c1", 1700000000000)) sample_dialog ∅).1.2 !! "c1"
    ≫= doc_name
  = Some (js "South Indian Food").
Proof. vm_compute. reflexivity. Qed.

(** * Further properties of the two files *)

(** ** The canvas and the search for a quality *)

(** X1.  The canvas is never larger than the picture, on either side, and never
    larger than 1200; a picture within 1200 on both sides keeps its size. *)
Theorem canvasSize_never_enlarges (img : Image) :
  0 ≤ width img → 0 ≤ height img →
  0 ≤ (canvasSize img).1 ≤ Z.min (width img) MAX_DIM ∧
  0 ≤ (canvasSize img).2 ≤ Z.min (height img) MAX_DIM ∧
  (width img ≤ MAX_DIM → height img ≤ MAX_DIM →
   canvasSize img = (width img, height img)).
Proof.
  intros Hw Hh. unfold canvasSize, MAX_DIM.
  destruct (Z.gtb_spec (width img) (height img)) as [Hwh|Hwh]; cbn [andb].
  - destruct (Z.gtb_spec (width img) 1200) as [Hbig|Hsmall].
    + cbn [fst snd].
      pose proof (Math_round_bounds (height img * 1200) (width img) ltac:(lia)).
      split_and!; [lia|lia|nia|nia|lia].
    + destruct (Z.gtb_spec (height img) 1200); [lia|]. cbn [fst snd].
      split_and!; [lia..|done].
  - destruct (Z.gtb_spec (height img) 1200) as [Hbig|Hsmall].
    + cbn [fst snd].
      pose proof (Math_round_bounds (width img * 1200) (height img) ltac:(lia)).
      split_and!; [nia|nia|lia|lia|lia].
    + cbn [fst snd]. split_and!; [lia..|done].
Qed.

Lemma canvasSize_never_enlarges_witness :
  let img := {| width := 4000; height := 1 |} in
  0 ≤ (canvasSize img).1 ≤ Z.min (width img) MAX_DIM ∧
  0 ≤ (canvasSize img).2 ≤ Z.min (height img) MAX_DIM ∧
  (width img ≤ MAX_DIM → height img ≤ MAX_DIM →
   canvasSize img = (width img, height img)).
Proof.
  apply (canvasSize_never_enlarges {| width := 4000; height := 1 |});
    cbn; lia.
Defined.

(** A very thin picture gets a canvas without height. *)
Example canvasSize_thin :
  canvasSize {| width := 4000; height := 1 |} = (1200, 0).
Proof. reflexivity. Qed.

(** X2.  Sizing is idempotent: a picture of the size of the canvas is not
    resized again. *)
Theorem canvasSize_idempotent (img : Image) :
  canvasSize {| width := (canvasSize img).1; height := (canvasSize img).2 |}
  = canvasSize img.
Proof.
  assert (∀ w h, w ≤ 1200 → h ≤ 1200 →
            canvasSize {| width := w; height := h |} = (w, h)) as Hsmall.
  { intros w h Hw Hh. unfold canvasSize, MAX_DIM. cbn [width height].
    destruct (Z.gtb_spec w 1200); [lia|].
    destruct (Z.gtb_spec h 1200); [lia|].
    by rewrite andb_false_r. }
  destruct (canvasSize img) as [w' h'] eqn:Hsize. cbn [fst snd].
  revert Hsize. unfold canvasSize, MAX_DIM.
  destruct (Z.gtb_spec (width img) (height img)) as [Hwh|Hwh]; cbn [andb].
  - destruct (Z.gtb_spec (width img) 1200) as [Hbig|Hle].
    + intros [= <- <-].
      pose proof (Math_round_bounds (height img * 1200) (width img) ltac:(lia)).
      apply Hsmall; [lia|nia].
    + destruct (Z.gtb_spec (height img) 1200); [lia|].
      intros [= <- <-]. apply Hsmall; lia.
  - destruct (Z.gtb_spec (height img) 1200) as [Hbig|Hle].
    + intros [= <- <-].
      pose proof (Math_round_bounds (width img * 1200) (height img) ltac:(lia)).
      apply Hsmall; [nia|lia].
    + intros [= <- <-]. apply Hsmall; lia.
Qed.

Section CompressEdge.

Context {File : Type}.
Variable decode : File → option Image.
Variable toDataURL : Canvas → float → jsstring.

Lemma floor_index j :
  (j ≤ 9)%nat → (quality_at j <=? 0.1)%float = true → j = 9%nat.
Proof.
  intros Hj.
  do 9 (destruct j as [|j]; [vm_compute; congruence|]).
  destruct j; [done|lia].
Qed.

(** X3.  The size target is not a guarantee: for a picture that no quality
    brings below the target, the promise is resolved all the same, with the
    encoding made at the floor 0.1, the tenth one. *)
Theorem compressImage_over_target fuel file img :
  decode file = Some img →
  (10 ≤ fuel)%nat →
  (∀ q, TARGET_KB ≤ byteLength (toDataURL (drawImage img) q)) →
  compressImage decode toDataURL fuel file =
    Some (Resolve {| dataUrl := toDataURL (drawImage img) 0.1%float;
                     quality := 0.1%float; encodings := 10 |}).
Proof.
  intros Hdec Hfuel Hbig. unfold compressImage. rewrite Hdec.
  destruct (tryCompress_run toDataURL (drawImage img) fuel 0 0)
    as (j & Hj & Hrun & Hacc & _); [lia|lia|].
  change (quality_at 0) with 0.9%float in Hrun. rewrite Hrun.
  unfold accepted in Hacc. apply orb_true_iff in Hacc as [Hsize|Hq].
  - apply Z.ltb_lt in Hsize. specialize (Hbig (quality_at j)). lia.
  - apply floor_index in Hq as ->; [|lia]. by rewrite quality_at_floor.
Qed.

End CompressEdge.

(** ** More on name normalisation *)

Lemma trimStart_blank s : trimStart s = [] ↔ blank s.
Proof.
  induction s as [|c s IH]; cbn.
  - split; [constructor|done].
  - destruct (isWhiteSpace c) eqn:Hc.
    + rewrite IH. split; [by constructor|by intros [_ ?]%Forall_cons].
    + split; [done|]. intros [? _]%Forall_cons. congruence.
Qed.

Lemma trim_blank s : trim s = [] ↔ blank s.
Proof.
  rewrite <- trimStart_blank. unfold trim.
  destruct (trimStart_head s) as [->|(c & t & -> & Hc)]; [done|].
  destruct (trimEnd_head c t Hc) as [t' ->]. done.
Qed.

Lemma trimStart_app_blank a t : blank a → trimStart (a ++ t) = trimStart t.
Proof. induction 1 as [|c a Hc _ IH]; cbn; [done|]. by rewrite Hc. Qed.

Lemma trimEnd_blank b : blank b → trimEnd b = [].
Proof. induction 1 as [|c b Hc _ IH]; cbn; [done|]. by rewrite IH, Hc. Qed.

Lemma trimEnd_app_blank t b : blank b → trimEnd (t ++ b) = trimEnd t.
Proof.
  intros Hb. induction t as [|c t IH]; cbn [app trimEnd].
  - by apply trimEnd_blank.
  - by rewrite IH.
Qed.

Lemma trim_app_blank s b : blank b → trim (s ++ b) = trim s.
Proof.
  intros Hb. unfold trim. induction s as [|c s IH]; cbn [app trimStart].
  - rewrite (proj2 (trimStart_blank b) Hb). done.
  - destruct (isWhiteSpace c); [done|].
    by rewrite app_comm_cons, trimEnd_app_blank.
Qed.

(** X4.  The result of [formatName] is normalised: it has no white space at
    either end, and its white space is single spaces. *)
Theorem formatName_normalised s :
  trim (formatName s) = formatName s ∧
  replace_whitespace_runs false (formatName s) = formatName s ∧
  split SPACE (formatName s) = map capitalize (words s).
Proof.
  rewrite formatName_words.
  destruct (words_cases s) as [[_ ->]|[_ Hws]]; [done|].
  apply good_capitalize in Hws.
  by rewrite trim_join, replace_join, split_join.
Qed.

(** X5.  [formatName] returns the empty string exactly on the blank strings:
    those made of white space only, the empty one among them. *)
Theorem formatName_empty_iff s : formatName s = [] ↔ blank s.
Proof.
  rewrite <- trim_blank. split.
  - intros Hempty. destruct (trim s) eqn:Htrim; [done|].
    destruct (formatName_nonblank s) as [? _]; [by rewrite Htrim|done].
  - apply formatName_blank.
Qed.

(** X6.  White space around a name does not matter. *)
Theorem formatName_padding a s b :
  blank a → blank b → formatName (a ++ s ++ b) = formatName s.
Proof.
  intros Ha Hb. unfold formatName. do 4 f_equal.
  rewrite app_assoc, trim_app_blank by done.
  unfold trim. by rewrite trimStart_app_blank.
Qed.

Lemma formatName_padding_witness :
  formatName (js "  " ++ js "south indian" ++ [9; 160])
  = formatName (js "south indian").
Proof.
  apply (formatName_padding (js "  ") (js "south indian") [9; 160]);
    repeat constructor.
Defined.

(** *** Letter case *)

Lemma toLowerCase_unit_isWhiteSpace c :
  isWhiteSpace (toLowerCase_unit c) = isWhiteSpace c.
Proof.
  destruct (isWhiteSpace c) eqn:Hc; [|by apply toLowerCase_unit_nows].
  apply isWhiteSpace_spec in Hc.
  replace (toLowerCase_unit c) with c; [by apply isWhiteSpace_spec|].
  unfold toLowerCase_unit. case_tests; lia.
Qed.

Lemma toLowerCase_unit_SPACE c : (toLowerCase_unit c =? SPACE) = (c =? SPACE).
Proof.
  unfold toLowerCase_unit, SPACE. case_tests;
    repeat match goal with |- context [?a =? ?b] => destruct (Z.eqb_spec a b) end;
    lia.
Qed.

Lemma trimStart_toLowerCase s :
  trimStart (toLowerCase s) = toLowerCase (trimStart s).
Proof.
  unfold toLowerCase. induction s as [|c s IH]; cbn; [done|].
  rewrite toLowerCase_unit_isWhiteSpace. by destruct (isWhiteSpace c).
Qed.

Lemma trimEnd_toLowerCase s :
  trimEnd (toLowerCase s) = toLowerCase (trimEnd s).
Proof.
  unfold toLowerCase. induction s as [|c s IH]; cbn [map trimEnd]; [done|].
  rewrite IH, toLowerCase_unit_isWhiteSpace.
  destruct (trimEnd s); cbn; [by destruct (isWhiteSpace c)|done].
Qed.

Lemma trim_toLowerCase s : trim (toLowerCase s) = toLowerCase (trim s).
Proof. unfold trim. by rewrite trimStart_toLowerCase, trimEnd_toLowerCase. Qed.

Lemma replace_toLowerCase b s :
  replace_whitespace_runs b (toLowerCase s)
  = toLowerCase (replace_whitespace_runs b s).
Proof.
  unfold toLowerCase. revert b. induction s as [|c s IH]; intros b; cbn; [done|].
  rewrite toLowerCase_unit_isWhiteSpace.
  destruct (isWhiteSpace c), b; cbn; by rewrite IH.
Qed.

Lemma split_toLowerCase s :
  split SPACE (toLowerCase s) = map toLowerCase (split SPACE s).
Proof.
  unfold toLowerCase. induction s as [|c s IH]; cbn [map split]; [done|].
  rewrite toLowerCase_unit_SPACE, IH.
  destruct (c =? SPACE); [done|]. by destruct (split SPACE s).
Qed.

Lemma toUpperCase_toLowerCase_unit c :
  toUpperCase_unit (toLowerCase_unit c) = toUpperCase_unit c.
Proof.
  unfold toLowerCase_unit. case_tests; unfold toUpperCase_unit; case_tests;
    try lia; try done; f_equal; lia.
Qed.

Lemma toLowerCase_idemp s : toLowerCase (toLowerCase s) = toLowerCase s.
Proof.
  unfold toLowerCase. rewrite <- list_fmap_compose.
  apply list_fmap_ext. intros _ c _. apply toLowerCase_unit_idemp.
Qed.

Lemma capitalize_toLowerCase w : capitalize (toLowerCase w) = capitalize w.
Proof.
  destruct w as [|c r]; [done|].
  change (toLowerCase (c :: r)) with (toLowerCase_unit c :: toLowerCase r).
  by rewrite !capitalize_cons, toUpperCase_toLowerCase_unit, toLowerCase_idemp.
Qed.

(** X7.  On Latin-1 strings [formatName] does not depend on the case of the
    letters it is given. *)
Theorem formatName_case_insensitive s :
  Forall (λ c, 0 ≤ c ≤ 255) s →
  formatName (toLowerCase s) = formatName s.
Proof.
  intros _. unfold formatName. f_equal.
  rewrite trim_toLowerCase, replace_toLowerCase, split_toLowerCase.
  rewrite <- list_fmap_compose. apply list_fmap_ext.
  intros _ w _. apply capitalize_toLowerCase.
Qed.

Lemma formatName_case_insensitive_witness :
  formatName (toLowerCase (js "SOUTH Indian")) = formatName (js "SOUTH Indian").
Proof.
  apply (formatName_case_insensitive (js "SOUTH Indian")).
  apply (bool_decide_unpack _). vm_compute. exact I.
Defined.

(** ** The dialog *)

(** X8.  After a category was added the form is empty again: submitting a
    second time without new input stores nothing and asks for a name. *)
Theorem handleSubmit_twice key now server st db :
  trim (AddCategory.name st) ≠ [] → truthy (image st) = true →
  let first := handleSubmit (Some (key, now)) st db in
  first.1.2 !! key ≫= doc_name = Some (formatName (AddCategory.name st)) ∧
  handleSubmit server first.1.1 first.1.2
  = (first.1.1, first.1.2, [alert "Category name is required."]).
Proof.
  intros Hname Himage. unfold handleSubmit.
  destruct (trim (AddCategory.name st)); [done|]. rewrite Himage.
  cbn [fst snd]. by rewrite lookup_insert_eq.
Qed.

(** X9.  While the submit button is enabled, [handleSubmit] raises none of its
    two validation alerts: it stores the category, or reports the failed
    write and keeps the form as it is for another attempt. *)
Theorem submit_enabled_stores server st db :
  submitDisabled st = false →
  match server with
  | Some (key, now) =>
      handleSubmit server st db =
        ({| open := false; AddCategory.name := []; image := None;
            preview := []; sizeInfo := []; isLoading := false |},
         <[key := {| doc_name := Some (formatName (AddCategory.name st));
                     doc_imageUrl := image st;
                     doc_createdAt := Some now;
                     doc_order := None |}]> db,
         [])
  | None =>
      handleSubmit server st db =
        (st, db,
         [console_error "Error adding category:";
          alert "Failed to add category. Check console."])
  end.
Proof.
  unfold submitDisabled, handleSubmit.
  intros [[Hload Hname]%orb_false_iff Himage]%orb_false_iff.
  apply negb_false_iff in Hname, Himage. cbn [truthy] in Hname.
  destruct (trim (AddCategory.name st)); [done|]. rewrite Himage.
  destruct server as [[key now]|]; [done|].
  destruct st. cbn in *. by rewrite Hload.
Qed.

(** X10.  A refused write changes nothing that matters to the next attempt:
    submitting again behaves as the first attempt would have. *)
Theorem handleSubmit_retry server st db :
  handleSubmit server (handleSubmit None st db).1.1 (handleSubmit None st db).1.2
  = handleSubmit server st db.
Proof.
  unfold handleSubmit.
  destruct (trim (AddCategory.name st)) eqn:Hname; cbn [fst snd].
  - by rewrite Hname.
  - destruct (truthy (image st)) eqn:Himage; cbn [fst snd AddCategory.name image];
      rewrite Hname, Himage; [|done].
    by destruct server as [[key now]|].
Qed.

Lemma commit_doc_fields network_ok calls db key d :
  commit network_ok db calls !! key = Some d →
  ∃ d0, db !! key = Some d0 ∧ doc_name d = doc_name d0 ∧
        doc_imageUrl d = doc_imageUrl d0 ∧ doc_createdAt d = doc_createdAt d0.
Proof.
  unfold commit. revert db. induction calls as [|w calls IH]; intros db; cbn [foldl].
  - intros Hd. by exists d.
  - intros (d1 & Hd1 & -> & -> & ->)%IH.
    unfold perform, set_order in Hd1. destruct (network_ok w); [|by exists d1].
    destruct (db !! w.1) as [dw|] eqn:Hw; [|by exists d1]. cbn in Hd1.
    destruct (decide (w.1 = key)) as [<-|Hne].
    + rewrite lookup_insert_eq in Hd1. injection Hd1 as <-. by exists dw.
    + rewrite lookup_insert_ne in Hd1 by done. by exists d1.
Qed.

Section Session.

Context {File : Type}.
Variable file_type : File → jsstring.
Variable decode : File → option Image.
Variable toDataURL : Canvas → float → jsstring.

Lemma tryCompress_accepted fuel canvas q n r :
  tryCompress toDataURL fuel canvas q n = Some r →
  dataUrl r = toDataURL canvas (quality r) ∧
  accepted (dataUrl r) (quality r) = true.
Proof.
  revert q n. induction fuel as [|fuel IH]; intros q n; [done|].
  cbn [tryCompress]. destruct (accepted (toDataURL canvas q) q) eqn:Hacc.
  - by intros [= <-].
  - apply IH.
Qed.

Lemma toFixed1_KB_nonempty num den : toFixed1 num den ++ js " KB" ≠ [].
Proof. unfold toFixed1. by destruct (js _). Qed.

Lemma processImage_cases fuel file st st' effects :
  processImage file_type decode toDataURL fuel file st = Some (st', effects) →
  st' = st ∨
  ∃ url, encoded toDataURL url ∧
         image st' = Some url ∧ preview st' = url ∧
         sizeInfo st' = toFixed1 (Z.of_nat (length url) * 3) 4096 ++ js " KB" ∧
         AddCategory.name st' = AddCategory.name st.
Proof.
  unfold processImage.
  destruct (negb _); [intros [= <- _]; by left|].
  unfold compressImage. destruct (decode file) as [img|]; [|intros [= <- _]; by left].
  destruct (tryCompress _ _ _ _ _) as [r|] eqn:Hrun; [|done].
  cbn. intros [= <- _]. right. exists (dataUrl r).
  apply tryCompress_accepted in Hrun as [Hurl Hacc].
  split_and!; [by exists (drawImage img), (quality r)|done..].
Qed.

(** X11.  Through every sequence of the handlers, the picture, its preview and
    its size text are set and cleared together: the preview is the picture
    (empty without one), and the size text is empty without a picture and
    is, with one, the text [processImage] computes from the length of that
    picture, which is never empty.  The picture held is one the search of
    [compressImage] accepted, and every category stored has a name that is
    not blank and such a picture. *)
Theorem session_well_formed st db :
  session file_type decode toDataURL st db → well_formed toDataURL st db.
Proof.
  induction 1 as [|value st db _ IH|fuel file st db st' effects _ IH Hproc
                  |st db _ IH|isOpen st db _ IH|st db _ IH|server st db _ IH
                  |network_ok panel st db j _ IH|key st db _ IH];
    try destruct IH as (Hprev & Hsize & Htext & Himg & Hdb).
  - split_and!; [done|done|done|done|].
    intros key d Hd. by rewrite lookup_empty in Hd.
  - done.
  - apply processImage_cases in Hproc as [->|(url & Hurl & Himg' & Hprev' & Hsize' & _)];
      [done|].
    split_and!; [by rewrite Himg'| | |intros ? ?; congruence|done].
    + intros ?; congruence.
    + intros url' Hurl'. rewrite Himg' in Hurl'. injection Hurl' as <-.
      split; [done|]. rewrite Hsize'. apply toFixed1_KB_nonempty.
  - split_and!; [done|done|done|done|done].
  - destruct isOpen; split_and!; done.
  - done.
  - unfold handleSubmit.
    destruct (trim (AddCategory.name st)) as [|c t] eqn:Htrim; [done|].
    destruct (truthy (image st)) eqn:Htruthy; [|done].
    destruct server as [[key now]|]; cbn [fst snd]; [|done].
    split_and!; [done|done|done|done|].
    intros key' d. destruct (decide (key = key')) as [<-|Hne].
    + rewrite lookup_insert_eq. intros [= <-]. cbn.
      destruct (image st) as [[|u url]|] eqn:Himage; try done.
      eexists _, _. split_and!; [done| |done|done|by apply Himg].
      apply formatName_nonblank. by rewrite Htrim.
    + rewrite lookup_insert_ne by done. apply Hdb.
  - split_and!; [done|done|done|done|].
    destruct (handleDrop_stored network_ok panel db j) as [calls ->].
    intros key d (d0 & Hd0 & -> & -> & _)%commit_doc_fields. by eapply Hdb.
  - split_and!; [done|done|done|done|].
    intros key' d Hd. apply lookup_delete_Some in Hd as [_ Hd]. by eapply Hdb.
Qed.

End Session.

(** ** The dashboard *)

(** X12.  The heading of a listed category is never empty: the normalised name
    when the stored name is not blank, "Unnamed" when the document has no
    name or the empty one, and "Unnamed Category" when the stored name is
    white space only. *)
Theorem categoryLabel_fetch key d :
  categoryLabel (fetch (key, d)) ≠ [] ∧
  match doc_name d with
  | None | Some [] => categoryLabel (fetch (key, d)) = js "Unnamed"
  | Some (c :: n) =>
      categoryLabel (fetch (key, d)) =
        if decide (trim (c :: n) = []) then js "Unnamed Category"
        else formatName (c :: n)
  end.
Proof.
  unfold categoryLabel, fetch. cbn [fst snd AdminDashboard.name].
  destruct (doc_name d) as [[|c n]|];
    cbn [truthy default from_option Datatypes.id]; [done| |done].
  case_decide as Hblank.
  - rewrite (formatName_blank _ Hblank). done.
  - destruct (formatName_nonblank _ Hblank) as [Hne _].
    destruct (formatName (c :: n)); done.
Qed.

Section Sorted.
Context {A : Type}.
Variable compareFn : A → A → number.
Variable R : A → A → Prop.
Hypothesis not_after_of_R : ∀ x y, R x y → number_positive (compareFn x y) = false.

Lemma sort_insert_first x l :
  Forall (R x) l → sort_insert compareFn x l = x :: l.
Proof.
  destruct 1 as [|y l Hy _]; cbn; [done|]. by rewrite not_after_of_R.
Qed.

Lemma sort_of_sorted l : StronglySorted R l → sort compareFn l = l.
Proof.
  induction 1 as [|x l _ IH Hx]; cbn; [done|].
  rewrite IH. by apply sort_insert_first.
Qed.

End Sorted.

Lemma ranks_before_not_after a b :
  ranks_before a b → number_positive (compareCategories a b) = false.
Proof.
  unfold compareCategories, ranks_before.
  destruct (order a) as [x|], (order b) as [y|]; cbn; try done.
  - destruct (Z.eqb_spec x y) as [->|Hxy]; cbn; intros H; apply Z.ltb_ge; lia.
  - intros H. apply Z.ltb_ge. lia.
Qed.

(** X13.  A snapshot whose documents arrive in rank order is listed in the order
    in which it arrives; in particular categories of the same order and
    the same creation time keep the order of the snapshot. *)
Theorem onCategoriesSnapshot_ranked docs st :
  StronglySorted ranks_before (fetch <$> docs) →
  categories (onCategoriesSnapshot docs st) = Some <$> (fetch <$> docs).
Proof.
  intros Hsorted. cbn [onCategoriesSnapshot categories]. f_equal.
  by apply (sort_of_sorted _ ranks_before ranks_before_not_after).
Qed.

Section DropEdge.
Variable network_ok : Write → bool.
Implicit Types (st : State) (db : Collection) (l : list Category).

Lemma batchUpdates_undefined idx l rest :
  batchUpdates idx ((Some <$> l) ++ None :: rest)
  = (imap (λ k cat, (id cat, (idx + k)%nat)) l, true).
Proof.
  revert idx. induction l as [|cat l IH]; intros idx; [done|].
  cbn [fmap list_fmap app batchUpdates].
  change (list_fmap _ _ Some l) with (Some <$> l).
  rewrite IH, imap_cons, Nat.add_0_r. do 2 f_equal.
  apply imap_ext. intros k c _. cbn. f_equal. lia.
Qed.

Lemma splice_past_end {A} (l : list A) i :
  (length l ≤ i)%nat → splice i 1 [] l = ([], l).
Proof.
  intros Hi. unfold splice.
  rewrite (drop_ge l i), (drop_ge l (i + 1)), (take_ge l i) by lia.
  cbn. by rewrite app_nil_r.
Qed.

Lemma handleDrop_past_end st db i j l :
  categories st = Some <$> l → draggedIndex st = Some i → i ≠ j →
  (length l ≤ i)%nat →
  handleDrop network_ok st db j =
    {| state := {| categories := (Some <$> take j l) ++ None :: (Some <$> drop j l);
                   loadingCategories := loadingCategories st;
                   draggedIndex := None |};
       stored := commit network_ok db (imap (λ idx cat, (id cat, idx)) (take j l));
       issued := imap (λ idx cat, (id cat, idx)) (take j l);
       console := []; threw := true |}.
Proof.
  intros Hcats Hdrag Hij Hi. unfold handleDrop.
  rewrite Hdrag, decide_False, Hcats by done.
  rewrite splice_past_end by (rewrite length_fmap; lia).
  cbn [lookup list_lookup mjoin option_join]. unfold splice.
  rewrite Nat.add_0_r, <- fmap_take, <- fmap_drop.
  cbn [app]. rewrite batchUpdates_undefined. done.
Qed.

Lemma allProducts_undefined l rest productsByCat :
  allProducts ((Some <$> l) ++ None :: rest) productsByCat = None.
Proof.
  induction l as [|cat l IH]; [done|]. cbn.
  change (list_fmap _ _ Some l) with (Some <$> l). by rewrite IH.
Qed.

(** X14.  A drag that began before a snapshot shortened the list: the listener
    keeps the dragged index, and a drop on another index then puts an
    [undefined] slot into the list, issues the writes of the categories
    before that slot only, logs nothing and ends by an exception; the
    catalogue can no longer be computed from the list. *)
Theorem handleDrop_after_shorter_snapshot st db docs i j productsByCat :
  (length docs ≤ i)%nat → i ≠ j →
  let listed := sort compareCategories (fetch <$> docs) in
  let st' := onCategoriesSnapshot docs (handleDragStart i st) in
  let out := handleDrop network_ok st' db j in
  threw out = true ∧
  categories (state out) = (Some <$> take j listed) ++ None :: (Some <$> drop j listed) ∧
  issued out = imap (λ idx cat, (id cat, idx)) (take j listed) ∧
  console out = [] ∧
  allProducts (categories (state out)) productsByCat = None.
Proof.
  intros Hi Hij listed st' out.
  assert (length listed = length docs) as Hlen.
  { subst listed. by rewrite sort_Permutation, length_fmap. }
  subst out. rewrite (handleDrop_past_end st' db i j listed); [|done|done|done|lia].
  cbn [threw state categories issued console].
  split_and!; [done..|]. apply allProducts_undefined.
Qed.

Lemma reinsert_back {A} (l : list A) i j x :
  (j < length l)%nat → l !! i = Some x →
  let l' := take j (delete i l) ++ x :: drop j (delete i l) in
  take i (delete j l') ++ x :: drop i (delete j l') = l.
Proof.
  intros Hj Hx l'. subst l'. rewrite reinsert_delete by done.
  pose proof (lookup_lt_Some _ _ _ Hx) as Hi.
  rewrite delete_take_drop.
  rewrite take_app_le, take_take, Nat.min_id by (rewrite length_take; lia).
  rewrite drop_app_ge, length_take_le, Nat.sub_diag by (rewrite ?length_take; lia).
  cbn [drop]. by apply take_drop_middle.
Qed.

(** X15.  Dragging an item from [i] to [j] and then back from [j] to [i]
    restores the list. *)
Theorem handleDrop_there_and_back network_ok' st db i j l :
  categories st = Some <$> l → draggedIndex st = Some i → i ≠ j →
  (i < length l)%nat → (j < length l)%nat →
  let there := handleDrop network_ok st db j in
  let back :=
    handleDrop network_ok' (handleDragStart j (state there)) (stored there) i in
  categories (state back) = categories st ∧ draggedIndex (state back) = None.
Proof.
  intros Hcats Hdrag Hij Hi Hj there back.
  destruct (lookup_lt_is_Some_2 _ _ Hi) as [x Hx].
  subst back there. rewrite (handleDrop_defined network_ok st db i j l x) by done.
  cbn [state stored].
  set (l' := take j (delete i l) ++ x :: drop j (delete i l)).
  rewrite (handleDrop_defined network_ok' _ _ j i l' x);
    [|done|done|done|by apply reinsert_lookup].
  cbn [state categories draggedIndex]. split; [|done].
  rewrite Hcats. f_equal. by apply reinsert_back.
Qed.

End DropEdge.

Section DropStore.
Variable network_ok : Write → bool.
Implicit Types (st : State) (db : Collection) (l : list Category).

Lemma commit_lookup_None calls db key :
  commit network_ok db calls !! key = None ↔ db !! key = None.
Proof.
  unfold commit. revert db. induction calls as [|w calls IH]; intros db; [done|].
  cbn [foldl]. rewrite IH. unfold perform, set_order.
  destruct (network_ok w); [|done].
  destruct (db !! w.1) as [dw|] eqn:Hw; [|done]. cbn.
  destruct (decide (w.1 = key)) as [<-|Hne].
  - rewrite lookup_insert_eq, Hw. done.
  - by rewrite lookup_insert_ne.
Qed.

(** X16.  Whatever the state, the index and the network, [handleDrop] creates no
    document and deletes none, and leaves the name, the picture and the
    creation time of every document as they are: [order] is the one field
    it writes. *)
Theorem handleDrop_keeps_documents st db dropIndex key :
  let after := stored (handleDrop network_ok st db dropIndex) in
  (after !! key = None ↔ db !! key = None) ∧
  ∀ d, after !! key = Some d →
    ∃ d0, db !! key = Some d0 ∧ doc_name d = doc_name d0 ∧
          doc_imageUrl d = doc_imageUrl d0 ∧
          doc_createdAt d = doc_createdAt d0.
Proof.
  intros after. subst after.
  destruct (handleDrop_stored network_ok st db dropIndex) as [calls ->].
  split; [apply commit_lookup_None|]. intros d. apply commit_doc_fields.
Qed.

Lemma commit_lookup_failed db calls key n :
  NoDup calls.*1 → (key, n) ∈ calls →
  perform network_ok db (key, n) = None →
  commit network_ok db calls !! key = db !! key.
Proof.
  unfold commit. revert db.
  induction calls as [|w calls IH]; intros db Hnodup Hin Hfail;
    [by apply elem_of_nil in Hin|].
  cbn [fmap list_fmap] in Hnodup. apply NoDup_cons in Hnodup as [Hfresh Hnodup].
  cbn [foldl]. apply elem_of_cons in Hin as [<-|Hin].
  - rewrite Hfail. cbn [default from_option Datatypes.id].
    by apply commit_lookup_other.
  - assert (w.1 ≠ key) as Hne.
    { intros <-. apply Hfresh. apply list_elem_of_fmap. by exists (w.1, n). }
    set (db1 := default db (perform network_ok db w)).
    assert (db1 !! key = db !! key) as Hsame.
    { subst db1. unfold perform, set_order. destruct (network_ok w); [|done].
      destruct (db !! w.1); [|done]. cbn. by rewrite lookup_insert_ne. }
    rewrite <- Hsame. apply IH; try done.
    clearbody db1. unfold perform, set_order in Hfail |- *.
    cbn [fst snd] in Hfail |- *. rewrite Hsame.
    destruct (network_ok (key, n)); [|done]. by destruct (db !! key).
Qed.

(** X17.  When only some of the writes of a reorder go through, the stored
    orders are mixed: the category now at position [idx] has [order]
    [idx] if its write went through, and its document is the one from
    before the drop if not. *)
Theorem handleDrop_partial_failure st db i j l idx cat :
  categories st = Some <$> l → draggedIndex st = Some i → i ≠ j →
  (i < length l)%nat → NoDup (id <$> l) →
  let out := handleDrop network_ok st db j in
  categories (state out) !! idx = Some (Some cat) →
  match perform network_ok db (id cat, idx) with
  | Some _ =>
      ∃ d, stored out !! id cat = Some d ∧ doc_order d = Some (Z.of_nat idx)
  | None => stored out !! id cat = db !! id cat
  end.
Proof.
  intros Hcats Hdrag Hij Hi Hnodup out.
  destruct (lookup_lt_is_Some_2 _ _ Hi) as [x Hx].
  subst out. rewrite (handleDrop_defined network_ok st db i j l x) by done.
  cbn [state categories stored].
  set (l' := take j (delete i l) ++ x :: drop j (delete i l)).
  rewrite list_lookup_fmap. intros Hcat.
  destruct (l' !! idx) as [cat'|] eqn:Hidx; [|done]. injection Hcat as ->.
  assert (l' ≡ₚ l) as Hperm by by apply reinsert_Permutation.
  assert (NoDup (imap (λ idx cat, (id cat, idx)) l').*1) as Hcalls.
  { rewrite fmap_imap, (imap_const id). by rewrite Hperm. }
  assert ((id cat, idx) ∈ imap (λ idx cat, (id cat, idx)) l') as Hin
    by by apply (elem_of_lookup_imap_2 (λ idx cat, (id cat, idx))).
  destruct (perform network_ok db (id cat, idx)) as [db1|] eqn:Hperf.
  - unfold perform, set_order in Hperf. cbn [fst snd] in Hperf.
    destruct (network_ok (id cat, idx)) eqn:Hnet; [|done].
    apply commit_lookup_written; [done..|].
    by destruct (db !! id cat).
  - by apply (commit_lookup_failed db _ (id cat) idx).
Qed.

Lemma StronglySorted_fmap_elem_of {A B} (R : relation A) (R' : relation B)
    (f : A → B) (l : list A) :
  (∀ a b, a ∈ l → b ∈ l → R a b → R' (f a) (f b)) →
  StronglySorted R l → StronglySorted R' (f <$> l).
Proof.
  intros Hf Hsorted. induction Hsorted as [|x l _ IH Hx]; cbn; [constructor|].
  constructor.
  - apply IH. intros a b Ha Hb. apply Hf; by right.
  - apply Forall_fmap, Forall_forall. intros y Hy. cbn.
    rewrite Forall_forall in Hx. apply Hf; [by left|by right|by apply Hx].
Qed.

Lemma StronglySorted_of_lookup {A} (R : relation A) (l : list A) :
  (∀ m1 m2 a b, (m1 < m2)%nat → l !! m1 = Some a → l !! m2 = Some b → R a b) →
  StronglySorted R l.
Proof.
  induction l as [|x l IH]; intros Hl; constructor.
  - apply IH. intros m1 m2 a b Hm Ha Hb. apply (Hl (S m1) (S m2)); [lia|done|done].
  - apply Forall_lookup. intros m b Hb. apply (Hl 0%nat (S m)); [lia|done|done].
Qed.

(** X18.  After a reorder whose writes all went through, a snapshot of the
    documents of the listed categories is listed in the order the drop
    left on the screen: what is stored is what is shown. *)
Theorem snapshot_after_reorder st st0 db i j l docs :
  categories st = Some <$> l → draggedIndex st = Some i → i ≠ j →
  (i < length l)%nat → NoDup (id <$> l) →
  let out := handleDrop network_ok st db j in
  (∀ w, w ∈ issued out → is_Some (perform network_ok db w)) →
  docs.*1 ≡ₚ id <$> l →
  (∀ key d, (key, d) ∈ docs → stored out !! key = Some d) →
  (λ c : option Category, id <$> c) <$> categories (onCategoriesSnapshot docs st0)
  = (λ c : option Category, id <$> c) <$> categories (state out).
Proof.
  intros Hcats Hdrag Hij Hi Hnodup out.
  destruct (lookup_lt_is_Some_2 _ _ Hi) as [x Hx].
  subst out. rewrite (handleDrop_defined network_ok st db i j l x) by done.
  cbn [state categories stored issued].
  set (l' := take j (delete i l) ++ x :: drop j (delete i l)).
  set (after := commit network_ok db (imap (λ idx cat, (id cat, idx)) l')).
  set (cats := sort compareCategories (fetch <$> docs)).
  intros Hok Hkeys Hdocs.
  assert (l' ≡ₚ l) as Hperm by by apply reinsert_Permutation.
  assert (NoDup (id <$> l')) as Hnodup' by by rewrite Hperm.
  (* the stored order of the category at each position *)
  assert (∀ m cat, l' !! m = Some cat →
            after !! id cat ≫= doc_order = Some (Z.of_nat m)) as Hstored.
  { intros m cat Hcat.
    assert ((id cat, m) ∈ imap (λ idx cat, (id cat, idx)) l') as Hin
      by by apply (elem_of_lookup_imap_2 (λ idx cat, (id cat, idx))).
    specialize (Hok _ Hin). unfold perform, set_order in Hok. cbn [fst snd] in Hok.
    destruct (network_ok (id cat, m)) eqn:Hnet; [|by destruct Hok].
    destruct (commit_lookup_written network_ok db
                (imap (λ idx cat, (id cat, idx)) l') (id cat) m)
      as (d & Hd & Hord);
      [by rewrite fmap_imap, (imap_const id)|done|done| |].
    - destruct (db !! id cat); [by eexists|by destruct Hok].
    - unfold after. by rewrite Hd. }
  set (rank := λ key : string, default (-1) (after !! key ≫= doc_order)).
  assert (∀ key, key ∈ id <$> l' →
            ∃ m, (id <$> l') !! m = Some key ∧ rank key = Z.of_nat m) as Hrank.
  { intros key (m & Hm)%list_elem_of_lookup. exists m. split; [done|].
    rewrite list_lookup_fmap in Hm.
    destruct (l' !! m) as [cat|] eqn:Hcat; [|done]. injection Hm as <-.
    subst rank. cbn beta. by rewrite (Hstored m cat Hcat). }
  assert (id <$> cats ≡ₚ id <$> l') as Hids.
  { subst cats. rewrite sort_Permutation, <- list_fmap_compose, Hperm, <- Hkeys.
    done. }
  (* a listed category carries the stored order of its document *)
  assert (∀ c, c ∈ cats → order c = Some (rank (id c))) as Horder.
  { intros c Hc. assert (id c ∈ id <$> l') as Hin.
    { rewrite <- Hids. by apply list_elem_of_fmap_2. }
    destruct (Hrank _ Hin) as (m & _ & Hm).
    subst cats. rewrite sort_Permutation in Hc.
    apply list_elem_of_fmap in Hc as ([key d] & -> & Hd).
    cbn [fetch fst snd order id] in *.
    revert Hm. subst rank. cbn beta. rewrite (Hdocs _ _ Hd). cbn.
    destruct (doc_order d); cbn; [done|lia]. }
  assert (id <$> cats = id <$> l') as Heq.
  { apply (StronglySorted_unique_strong (λ k1 k2, rank k1 ≤ rank k2)); [| | |done].
    - intros k1 k2 Hk1 Hk2 H12 H21. rewrite Hids in Hk1.
      destruct (Hrank _ Hk1) as (m1 & Hm1 & Hr1).
      destruct (Hrank _ Hk2) as (m2 & Hm2 & Hr2).
      assert (m1 = m2) as -> by lia. congruence.
    - apply (StronglySorted_fmap_elem_of ranks_before).
      + intros a b Ha Hb. unfold ranks_before.
        rewrite (Horder a Ha), (Horder b Hb). lia.
      + apply sort_sorted.
        * apply ranks_before_trans.
        * apply compareCategories_not_after.
        * apply compareCategories_after.
    - apply StronglySorted_of_lookup. intros m1 m2 k1 k2 Hm Hk1 Hk2.
      destruct (Hrank k1) as (m1' & Hm1' & ->); [by eapply list_elem_of_lookup_2|].
      destruct (Hrank k2) as (m2' & Hm2' & ->); [by eapply list_elem_of_lookup_2|].
      rewrite (NoDup_lookup _ _ _ _ Hnodup' Hm1' Hk1).
      rewrite (NoDup_lookup _ _ _ _ Hnodup' Hm2' Hk2). lia. }
  change (categories (onCategoriesSnapshot docs st0)) with (Some <$> cats).
  rewrite <- !list_fmap_compose.
  change ((λ c : option Category, id <$> c) ∘ Some) with (Some ∘ id).
  by rewrite !list_fmap_compose, Heq.
Qed.

End DropStore.

(** X19.  Once every stored category has an [order] (a reorder went through), a
    category added through the dialog, which is stored without [order], is
    listed last. *)
Theorem new_category_listed_last key now dlg db docs st :
  trim (AddCategory.name dlg) ≠ [] → truthy (image dlg) = true →
  (∀ k d, k ≠ key → db !! k = Some d → is_Some (doc_order d)) →
  let db' := (handleSubmit (Some (key, now)) dlg db).1.2 in
  NoDup docs.*1 → key ∈ docs.*1 →
  (∀ k d, (k, d) ∈ docs → db' !! k = Some d) →
  ∃ cat, last (categories (onCategoriesSnapshot docs st)) = Some (Some cat) ∧
         id cat = key ∧ order cat = None.
Proof.
  intros Hname Himage Hordered db' Hnodup Hkey Hdocs.
  set (new := {| doc_name := Some (formatName (AddCategory.name dlg));
                 doc_imageUrl := image dlg; doc_createdAt := Some now;
                 doc_order := None |}).
  assert (db' = <[key := new]> db) as Hdb'.
  { subst db'. unfold handleSubmit.
    destruct (trim (AddCategory.name dlg)); [done|]. by rewrite Himage. }
  set (cats := sort compareCategories (fetch <$> docs)).
  change (categories (onCategoriesSnapshot docs st)) with (Some <$> cats).
  (* a listed category without order is the new one *)
  assert (∀ b, b ∈ cats → order b = None → b = fetch (key, new)) as Hnone.
  { intros b Hb Hb_order. subst cats. rewrite sort_Permutation in Hb.
    apply list_elem_of_fmap in Hb as ([k d] & -> & Hd).
    specialize (Hdocs _ _ Hd). rewrite Hdb' in Hdocs.
    destruct (decide (key = k)) as [<-|Hne].
    - rewrite lookup_insert_eq in Hdocs. by injection Hdocs as <-.
    - rewrite lookup_insert_ne in Hdocs by done.
      destruct (Hordered k d) as [o Ho]; [done|done|].
      cbn in Hb_order. congruence. }
  assert (fetch (key, new) ∈ cats) as Hin.
  { subst cats. rewrite sort_Permutation.
    apply list_elem_of_fmap in Hkey as ([k d] & -> & Hd).
    pose proof (Hdocs _ _ Hd) as Hlook. rewrite Hdb', lookup_insert_eq in Hlook.
    injection Hlook as <-. by apply list_elem_of_fmap_2. }
  assert (NoDup cats) as Hnodup_cats.
  { subst cats. rewrite sort_Permutation.
    apply (NoDup_fmap_1 id). by rewrite <- list_fmap_compose. }
  assert (StronglySorted ranks_before cats) as Hsorted.
  { apply sort_sorted.
    - apply ranks_before_trans.
    - apply compareCategories_not_after.
    - apply compareCategories_after. }
  apply list_elem_of_split in Hin as (l1 & l2 & Hsplit).
  rewrite Hsplit in Hsorted, Hnodup_cats.
  apply StronglySorted_app_1_r, StronglySorted_cons in Hsorted as [Hafter _].
  apply NoDup_app in Hnodup_cats as (_ & _ & [Hfresh _]%NoDup_cons).
  destruct l2 as [|b l2].
  - exists (fetch (key, new)). rewrite Hsplit, fmap_last, last_snoc. done.
  - exfalso. apply Hfresh. apply Forall_cons in Hafter as [Hb _].
    rewrite <- (Hnone b); [by left| |].
    + rewrite Hsplit. apply elem_of_app. right. right. by left.
    + unfold ranks_before in Hb. cbn in Hb. by destruct (order b).
Qed.

(** ** Products and search *)

Lemma compareProducts_not_after a b :
  number_positive (compareProducts a b) = false → newest_first a b.
Proof. unfold compareProducts, newest_first. cbn. intros H%Z.ltb_ge. lia. Qed.

Lemma compareProducts_after a b :
  number_positive (compareProducts a b) = true → newest_first b a.
Proof. unfold compareProducts, newest_first. cbn. intros H%Z.ltb_lt. lia. Qed.

Lemma fetchProduct_imageUrls d : imageUrls (fetchProduct d) ≠ Some [].
Proof.
  unfold fetchProduct. cbn [imageUrls].
  destruct (pdoc_imageUrls d.2) as [[|u urls]|]; [done|done|].
  by destruct (truthy (pdoc_imageUrl d.2)).
Qed.

(** X20.  A snapshot of the products of a category replaces the list of that
    category by the fetched products, each once, the most recent first, and
    clears its loading flag; the lists and flags of the other categories
    are not touched, and no listed product has an empty list of
    pictures. *)
Theorem onProductsSnapshot_listed catId docs st :
  let st' := onProductsSnapshot catId docs st in
  (∃ prods,
     st'.1 !! catId = Some prods ∧
     prods ≡ₚ fetchProduct <$> docs ∧
     StronglySorted newest_first prods ∧
     ∀ p, p ∈ prods → imageUrls p ≠ Some []) ∧
  st'.2 !! catId = Some false ∧
  ∀ other, other ≠ catId →
    st'.1 !! other = st.1 !! other ∧ st'.2 !! other = st.2 !! other.
Proof.
  cbn [onProductsSnapshot fst snd]. split_and!.
  - eexists. rewrite lookup_insert_eq. split_and!; [done| | |].
    + apply sort_Permutation.
    + apply sort_sorted.
      * intros a b c. unfold newest_first. lia.
      * apply compareProducts_not_after.
      * apply compareProducts_after.
    + intros p. rewrite sort_Permutation.
      intros (d & -> & _)%list_elem_of_fmap. apply fetchProduct_imageUrls.
  - apply lookup_insert_eq.
  - intros other Hother. by rewrite !lookup_insert_ne.
Qed.

(** X21.  On a Latin-1 query the search does not depend on the case of the
    letters typed. *)
Theorem filteredProducts_query_case all q :
  Forall (λ c, 0 ≤ c ≤ 255) q →
  filteredProducts all (toLowerCase q) = filteredProducts all q.
Proof.
  intros _. unfold filteredProducts.
  rewrite trim_toLowerCase, toLowerCase_idemp.
  by destruct (trim q).
Qed.

Lemma filteredProducts_query_case_witness :
  filteredProducts sample_catalogue (toLowerCase (js "BIRyani"))
  = filteredProducts sample_catalogue (js "BIRyani").
Proof.
  apply (filteredProducts_query_case sample_catalogue (js "BIRyani")).
  apply (bool_decide_unpack _). vm_compute. exact I.
Defined.

Lemma startsWith_app a b s :
  startsWith (a ++ b) s = true →
  startsWith a s = true ∧ startsWith b (drop (length a) s) = true.
Proof.
  revert s. induction a as [|c a IH]; intros s; [done|].
  destruct s as [|c' s]; [done|]. cbn.
  intros [Hc Hrest]%andb_true_iff. rewrite Hc. by apply IH.
Qed.

Lemma includes_drop s n q : includes (drop n s) q = true → includes s q = true.
Proof.
  revert s. induction n as [|n IH]; intros s; [by rewrite drop_0|].
  destruct s as [|c s]; [done|]. cbn [drop]. intros H%IH.
  cbn [includes]. rewrite H. apply orb_true_r.
Qed.

Lemma includes_startsWith s q : startsWith q s = true → includes s q = true.
Proof. intros H. destruct s; cbn [includes]; by rewrite H. Qed.

Lemma includes_infix s a q b :
  includes s (a ++ q ++ b) = true → includes s q = true.
Proof.
  induction s as [|c s IH]; intros H; cbn [includes] in H.
  - rewrite orb_false_r in H. apply startsWith_app in H as [_ H].
    apply startsWith_app in H as [H _]. apply (includes_drop _ (length a)).
    by apply includes_startsWith.
  - apply orb_true_iff in H as [H|H].
    + apply startsWith_app in H as [_ H]. apply startsWith_app in H as [H _].
      apply (includes_drop (c :: s) (length a)). by apply includes_startsWith.
    + cbn [includes]. rewrite (IH H). apply orb_true_r.
Qed.

Lemma filter_sublist_impl {A} (f g : A → bool) l :
  (∀ x, f x = true → g x = true) →
  List.filter f l `sublist_of` List.filter g l.
Proof.
  intros Hfg. induction l as [|x l IH]; cbn; [constructor|].
  destruct (f x) eqn:Hf.
  - rewrite (Hfg x Hf). by constructor.
  - destruct (g x); [by constructor|done].
Qed.

(** X22.  Typing more around a Latin-1 query that is not blank never adds a
    result: the products found for the longer query are among those found
    for the shorter one, in the same order.  (On Latin-1 the lower case of
    a string is that of its characters, one by one.) *)
Theorem filteredProducts_narrows all a q b :
  Forall (λ c, 0 ≤ c ≤ 255) (a ++ q ++ b) →
  ¬ blank q →
  filteredProducts all (a ++ q ++ b) `sublist_of` filteredProducts all q.
Proof.
  intros _ Hq. unfold filteredProducts.
  destruct (trim q) eqn:Hq'; [by apply trim_blank in Hq'|].
  destruct (trim (a ++ q ++ b)); [apply sublist_nil_l|].
  apply filter_sublist_impl. intros p. unfold matches, toLowerCase.
  rewrite !map_app. intros [H|H]%orb_true_iff; apply orb_true_iff.
  - left. by eapply includes_infix.
  - right. destruct (description (item p)); [|done]. by eapply includes_infix.
Qed.

Lemma filteredProducts_narrows_witness :
  filteredProducts sample_catalogue (js "chicken " ++ js "bir" ++ js "yani")
    `sublist_of` filteredProducts sample_catalogue (js "bir").
Proof.
  apply (filteredProducts_narrows sample_catalogue (js "chicken ") (js "bir")
           (js "yani")).
  { apply (bool_decide_unpack _). vm_compute. exact I. }
  intros Hblank. apply Forall_cons in Hblank as [Hb _]. vm_compute in Hb. done.
Defined.

(** X23.  The clean-up effect deletes nothing from a collection that the
    handlers produced: no category stored through the dialog has the empty
    name. *)
Theorem cleanup_keeps_reachable db : reachable db → cleanup db = db.
Proof.
  intros Hdb%reachable_names_kept. unfold cleanup.
  apply map_filter_id. intros key d (n & Hn & Htrim)%Hdb. cbn.
  rewrite Hn. intros [= ->]. done.
Qed.

(** ** Sample runs of the further properties *)

Lemma compressImage_over_target_witness :
  compressImage sample_decode heavy_encoder 10 () =
    Some (Resolve
            {| dataUrl := heavy_encoder
                            (drawImage {| width := 4000; height := 3000 |})
                            0.1%float;
               quality := 0.1%float; encodings := 10 |}).
Proof.
  apply (compressImage_over_target sample_decode heavy_encoder 10 ()
           {| width := 4000; height := 3000 |}); [reflexivity|lia|].
  intros q. vm_compute. discriminate.
Defined.

Lemma handleSubmit_twice_witness :
  let first := handleSubmit (Some ("c1", 1700000000001)) sample_dialog ∅ in
  first.1.2 !! "c1" ≫= doc_name
    = Some (formatName (AddCategory.name sample_dialog)) ∧
  handleSubmit None first.1.1 first.1.2
  = (first.1.1, first.1.2, [alert "Category name is required."]).
Proof.
  apply (handleSubmit_twice "c1" 1700000000001 None sample_dialog ∅).
  - vm_compute. discriminate.
  - reflexivity.
Defined.

Lemma submit_enabled_stores_witness :
  handleSubmit None sample_dialog sample_db =
    (sample_dialog, sample_db,
     [console_error "Error adding category:";
      alert "Failed to add category. Check console."]).
Proof.
  apply (submit_enabled_stores None sample_dialog sample_db).
  vm_compute. reflexivity.
Defined.

Lemma session_well_formed_witness :
  well_formed sample_encoder
    (handleSubmit (Some ("c1", 1700000000001)) sample_processed ∅).1.1
    (handleSubmit (Some ("c1", 1700000000001)) sample_processed ∅).1.2.
Proof.
  apply (session_well_formed sample_file_type sample_decode sample_encoder).
  apply session_handleSubmit.
  apply (session_processImage sample_file_type sample_decode sample_encoder
           10 () (setName (js "south indian") initial) ∅ sample_processed []).
  - apply session_setName, session_initial.
  - vm_compute. reflexivity.
Defined.

Example sample_processed_picture :
  length <$> image sample_processed = Some 4000%nat ∧
  sizeInfo sample_processed = js "2.9 KB".
Proof. vm_compute. done. Qed.

Lemma onCategoriesSnapshot_ranked_witness :
  categories (onCategoriesSnapshot
                [("b", sample_doc_ordered 0); ("a", sample_doc)]
                (sample_state None))
  = Some <$> (fetch <$> [("b", sample_doc_ordered 0); ("a", sample_doc)]).
Proof.
  apply (onCategoriesSnapshot_ranked
           [("b", sample_doc_ordered 0); ("a", sample_doc)] (sample_state None)).
  apply SSorted_cons.
  - apply SSorted_cons; [apply SSorted_nil|apply List.Forall_nil].
  - apply List.Forall_cons; [exact I|apply List.Forall_nil].
Defined.

Lemma handleDrop_after_shorter_snapshot_witness :
  let listed := sort compareCategories (fetch <$> [("a", sample_doc)]) in
  let st' :=
    onCategoriesSnapshot [("a", sample_doc)]
      (handleDragStart 2 (sample_state None)) in
  let out := handleDrop lossy st' sample_db 0 in
  threw out = true ∧
  categories (state out) = (Some <$> take 0 listed) ++ None :: (Some <$> drop 0 listed) ∧
  issued out = imap (λ idx cat, (id cat, idx)) (take 0 listed) ∧
  console out = [] ∧
  allProducts (categories (state out)) ∅ = None.
Proof.
  apply (handleDrop_after_shorter_snapshot lossy (sample_state None) sample_db
           [("a", sample_doc)] 2 0 ∅); [cbn; lia|lia].
Defined.

Lemma handleDrop_there_and_back_witness :
  let there := handleDrop lossy (sample_state (Some 0%nat)) sample_db 2 in
  let back :=
    handleDrop (λ _, true) (handleDragStart 2 (state there)) (stored there) 0 in
  categories (state back) = categories (sample_state (Some 0%nat)) ∧
  draggedIndex (state back) = None.
Proof.
  apply (handleDrop_there_and_back lossy (λ _, true) (sample_state (Some 0%nat))
           sample_db 0 2 sample_list);
    [reflexivity|reflexivity|lia|cbn; lia|cbn; lia].
Defined.

Lemma handleDrop_partial_failure_witness :
  let out := handleDrop lossy (sample_state (Some 0%nat)) sample_db 2 in
  match perform lossy sample_db (id (sample_category "b"), 0%nat) with
  | Some _ =>
      ∃ d, stored out !! id (sample_category "b") = Some d ∧
           doc_order d = Some (Z.of_nat 0)
  | None =>
      stored out !! id (sample_category "b")
      = sample_db !! id (sample_category "b")
  end.
Proof.
  apply (handleDrop_partial_failure lossy (sample_state (Some 0%nat)) sample_db
           0 2 sample_list 0 (sample_category "b"));
    [reflexivity|reflexivity|lia|cbn; lia| |vm_compute; reflexivity].
  apply (bool_decide_unpack _). vm_compute. exact I.
Defined.

Lemma snapshot_after_reorder_witness :
  let out := handleDrop (λ _, true) (sample_state (Some 0%nat)) sample_db 2 in
  (λ c : option Category, id <$> c)
    <$> categories (onCategoriesSnapshot sample_docs_after (sample_state None))
  = (λ c : option Category, id <$> c) <$> categories (state out).
Proof.
  apply (snapshot_after_reorder (λ _, true) (sample_state (Some 0%nat))
           (sample_state None) sample_db 0 2 sample_list sample_docs_after);
    [reflexivity|reflexivity|lia|cbn; lia| | | |].
  - apply (bool_decide_unpack _). vm_compute. exact I.
  - intros w Hw. vm_compute in Hw.
    repeat (apply elem_of_cons in Hw as [->|Hw]; [vm_compute; by eexists|]).
    by apply elem_of_nil in Hw.
  - reflexivity.
  - intros key d Hd. unfold sample_docs_after in Hd.
    repeat (apply elem_of_cons in Hd as [[= -> ->]|Hd]; [vm_compute; reflexivity|]).
    by apply elem_of_nil in Hd.
Defined.

Lemma new_category_listed_last_witness :
  ∃ cat,
    last (categories
            (onCategoriesSnapshot
               [("new", sample_new_doc); ("b", sample_doc_ordered 1);
                ("a", sample_doc_ordered 0)]
               (sample_state None)))
    = Some (Some cat) ∧
    id cat = "new" ∧ order cat = None.
Proof.
  apply (new_category_listed_last "new" 1700000000001 sample_dialog
           sample_db_ordered
           [("new", sample_new_doc); ("b", sample_doc_ordered 1);
            ("a", sample_doc_ordered 0)]
           (sample_state None)).
  - vm_compute. discriminate.
  - reflexivity.
  - intros k d Hk Hd. unfold sample_db_ordered in Hd.
    apply lookup_insert_Some in Hd as [[_ <-]|[_ Hd]]; [by eexists|].
    apply lookup_insert_Some in Hd as [[_ <-]|[_ Hd]]; [by eexists|].
    by rewrite lookup_empty in Hd.
  - apply (bool_decide_unpack _). vm_compute. exact I.
  - apply list_elem_of_here.
  - intros k d Hd.
    repeat (apply elem_of_cons in Hd as [[= -> ->]|Hd]; [vm_compute; reflexivity|]).
    by apply elem_of_nil in Hd.
Defined.

Lemma cleanup_keeps_reachable_witness :
  cleanup (handleSubmit (Some ("c1", 1700000000001)) sample_dialog ∅).1.2
  = (handleSubmit (Some ("c1", 1700000000001)) sample_dialog ∅).1.2.
Proof.
  apply (cleanup_keeps_reachable
           (handleSubmit (Some ("c1", 1700000000001)) sample_dialog ∅).1.2).
  apply reachable_submit, reachable_empty.
Defined.

Example filteredProducts_sample :
  product_id ∘ item <$> filteredProducts sample_catalogue (js "BIR")
    = ["p1"; "p2"] ∧
  filteredProducts sample_catalogue (js "   ") = [] ∧
  categoryId <$> sample_catalogue = ["a"; "a"; "c"].
Proof. vm_compute. done. Qed.
